(** * ferrum demo: the reference algorithms and the benchmark harness

    A shallow embedding of [demo.py]: the four pure-Python reference
    algorithms ([python_sum_large_vector], [python_fibonacci],
    [python_find_primes], [python_analyze_text]) and the timing loop
    [benchmark_function], with the properties stated for them.

    Modelling conventions.
    - A Python [int] is a [Z] (arbitrary precision, no wrap-around).
    - A Python [list] is a Rocq [list]; item assignment [l[j] = v] is
      stdpp's [<[j:=v]>] guarded by the bounds check that makes Python
      raise [IndexError].
    - A Python [str] is the list of its code points.
    - A call either returns a value or raises: [outcome A].
    - Memory and recursion depth are unbounded (no [MemoryError], no
      [RecursionError]). *)

From Stdlib Require Import ZArith Znumtheory QArith Lia List Sorted String.
From stdpp Require Import base list.
From Equations Require Import Equations.

Local Open Scope Z_scope.

(** ** Outcomes of Python calls *)

Module Py.

(** The exceptions the modelled code can raise, and [UserError] for
    whatever a benchmarked callable raises on its own. *)
Inductive exn : Type :=
| IndexError
| ValueError
| ZeroDivisionError
| UnboundLocalError
| InvalidArgument
| UserError (tag : string).

Inductive outcome (A : Type) : Type :=
| Ret (a : A)
| Raise (e : exn).
Arguments Ret {A} a.
Arguments Raise {A} e.

Definition bind {A B : Type} (m : outcome A) (k : A -> outcome B) : outcome B :=
  match m with
  | Ret a => k a
  | Raise e => Raise e
  end.

Definition raises {A : Type} (m : outcome A) : Prop :=
  exists e, m = Raise e.

Definition returns {A : Type} (m : outcome A) : Prop :=
  exists a, m = Ret a.

End Py.
Export Py.

Notation "x <- m ;; k" := (bind m (fun x => k))
  (at level 100, m at next level, right associativity).

(** ** [python_sum_large_vector]

<<
def python_sum_large_vector(numbers):
    return sum(numbers)
>>
    [sum] starts from [0] and adds the elements from left to right. *)

Definition py_sum (numbers : list Z) : Z := fold_left Z.add numbers 0.

Definition python_sum_large_vector (numbers : list Z) : Z := py_sum numbers.


(** ** [python_fibonacci]

<<
def python_fibonacci(n):
    if n <= 1:
        return n
    return python_fibonacci(n - 1) + python_fibonacci(n - 2)
>>
    The recursion is on [n - 1] and [n - 2], which decreases
    [Z.to_nat n] as soon as [n > 1]. *)

Equations? python_fibonacci (n : Z) : outcome Z by wf (Z.to_nat n) lt :=
  python_fibonacci n with Z_le_gt_dec n 1 := {
    | left _ => Ret n
    | right _ =>
        match python_fibonacci (n - 1) with
        | Ret a =>
            match python_fibonacci (n - 2) with
            | Ret b => Ret (a + b)
            | Raise e => Raise e
            end
        | Raise e => Raise e
        end }.
Proof. all: lia. Qed.


(** The closed form the recursion computes on non-negative inputs:
    the pair [(F k, F (k+1))] by iteration. *)
Fixpoint fib_pair (k : nat) : Z * Z :=
  match k with
  | O => (0, 1)
  | S k' => let '(a, b) := fib_pair k' in (b, a + b)
  end.

(** ** Python built-ins used by the sieve *)

(** Index normalisation of [l[i]]: an index in [0, len) is taken
    as it is, one in [-len, 0) counts from the end, anything else raises
    [IndexError]. *)
Definition py_index {A : Type} (l : list A) (i : Z) : outcome nat :=
  let n := Z.of_nat (length l) in
  if (0 <=? i) && (i <? n) then Ret (Z.to_nat i)
  else if (- n <=? i) && (i <? 0) then Ret (Z.to_nat (i + n))
  else Raise IndexError.

(** [l[i]] *)
Definition list_getitem {A : Type} (l : list A) (i : Z) : outcome A :=
  k <- py_index l i ;;
  match l !! k with
  | Some x => Ret x
  | None => Raise IndexError
  end.

(** [l[i] = v] *)
Definition list_setitem {A : Type} (l : list A) (i : Z) (v : A) : outcome (list A) :=
  k <- py_index l i ;; Ret (<[k:=v]> l).

(** [len(range(start, stop, step))] for a non-zero step. *)
Definition range_len (start stop step : Z) : Z :=
  if 0 <? step then
    (if start <? stop then (stop - start - 1) / step + 1 else 0)
  else
    (if stop <? start then (start - stop - 1) / (- step) + 1 else 0).

(** [range(start, stop, step)]; a zero step raises [ValueError]. *)
Definition py_range3 (start stop step : Z) : outcome (list Z) :=
  if step =? 0 then Raise ValueError
  else Ret (map (fun k => start + Z.of_nat k * step)
                (seq 0 (Z.to_nat (range_len start stop step)))).

(** [range(start, stop)] *)
Definition py_range2 (start stop : Z) : list Z :=
  map (fun k => start + Z.of_nat k) (seq 0 (Z.to_nat (stop - start))).

(** [for x in xs: body], threading the mutated state and stopping at the
    first exception. *)
Fixpoint for_each {S : Type} (xs : list Z) (body : Z -> S -> outcome S) (s : S)
  : outcome S :=
  match xs with
  | [] => Ret s
  | x :: xs' => s' <- body x s ;; for_each xs' body s'
  end.

(** [enumerate(l)], counting from [k]. *)
Fixpoint enumerate_from {A : Type} (k : Z) (l : list A) : list (Z * A) :=
  match l with
  | [] => []
  | x :: l' => (k, x) :: enumerate_from (k + 1) l'
  end.

Definition enumerate {A : Type} (l : list A) : list (Z * A) := enumerate_from 0 l.

(** [int(x ** 0.5)] for an integer [x >= 0]: the floor of the square
    root. Binary64 holds every integer below [2^53] exactly and the
    float power is within one unit in the last place of the real root,
    so on every limit whose sieve fits in memory the truncated float is
    [Z.sqrt x] or, harmlessly, one more; the sieve is also proved for
    any bound [r] with [Z.sqrt limit <= r <= limit]
    ([find_primes_upto_spec]). *)
Definition int_pow_half (x : Z) : Z := Z.sqrt x.

(** ** [python_find_primes]

<<
def python_find_primes(limit):
    if limit < 2:
        return []
    sieve = [True] * (limit + 1)
    sieve[0] = sieve[1] = False
    for i in range(2, int(limit**0.5) + 1):
        if sieve[i]:
            for j in range(i*i, limit + 1, i):
                sieve[j] = False
    return [i for i, is_prime in enumerate(sieve) if is_prime]
>> *)

(** The inner loop: strike the multiples of [i] from [i*i] on. *)
Definition sieve_strike (limit i : Z) (sieve : list bool) : outcome (list bool) :=
  js <- py_range3 (i * i) (limit + 1) i ;;
  for_each js (fun j s => list_setitem s j false) sieve.

(** The body of the outer loop. *)
Definition sieve_step (limit i : Z) (sieve : list bool) : outcome (list bool) :=
  b <- list_getitem sieve i ;;
  if b : bool then sieve_strike limit i sieve else Ret sieve.

(** The list comprehension of the last line. *)
Definition sieve_collect (sieve : list bool) : list Z :=
  map fst (List.filter (fun p : Z * bool => snd p) (enumerate sieve)).

(** The function with the bound of the outer loop made explicit. *)
Definition find_primes_upto (r limit : Z) : outcome (list Z) :=
  if limit <? 2 then Ret []
  else
    let sieve := replicate (Z.to_nat (limit + 1)) true in
    sieve <- list_setitem sieve 0 false ;;
    sieve <- list_setitem sieve 1 false ;;
    sieve <- for_each (py_range2 2 (r + 1)) (sieve_step limit) sieve ;;
    Ret (sieve_collect sieve).

Definition python_find_primes (limit : Z) : outcome (list Z) :=
  find_primes_upto (int_pow_half limit) limit.
(** [unstruck m j]: no [d] in [2..m] with [d*d <= j] divides [j]; what
    a [True] cell means once the outer loop has gone through [2..m]. *)
Definition unstruck (m j : Z) : Prop :=
  2 <= j /\ forall d, 2 <= d <= m -> d * d <= j -> ~ (d | j).

Definition sieve_inv (limit m : Z) (s : list bool) : Prop :=
  length s = Z.to_nat (limit + 1) /\
  forall j, 0 <= j <= limit ->
    exists b : bool, s !! Z.to_nat j = Some b /\ (b = true <-> unstruck m j).

(** ** [python_analyze_text]

<<
def python_analyze_text(text):
    lines = len(text.splitlines())
    words = len(text.split())
    chars = len(text)
    return (lines, words, chars)
>>
    A [str] is the list of its code points. *)

Definition str := list Z.

Definition LF : Z := 10.
Definition CR : Z := 13.

(** The line boundaries of [str.splitlines]: LF, VT, FF, CR, FS, GS,
    RS, NEL, LINE SEPARATOR and PARAGRAPH SEPARATOR. *)
Definition is_linebreak (c : Z) : bool :=
  ((10 <=? c) && (c <=? 13)) || ((28 <=? c) && (c <=? 30)) ||
  (c =? 133) || (c =? 8232) || (c =? 8233).

(** The whitespace of [str.split()] (that of [str.isspace]). *)
Definition is_space (c : Z) : bool :=
  ((9 <=? c) && (c <=? 13)) || ((28 <=? c) && (c <=? 32)) ||
  (c =? 133) || (c =? 160) || (c =? 5760) ||
  ((8192 <=? c) && (c <=? 8202)) || (c =? 8232) || (c =? 8233) ||
  (c =? 8239) || (c =? 8287) || (c =? 12288).

(** [text.splitlines()]: scan to the next line boundary, emit the
    segment before it, take CR LF as one boundary; what is left after
    the last boundary is emitted only when it is not empty. [cur] is
    the segment being read, last character first. *)
Fixpoint splitlines_from (cur : str) (s : str) : list str :=
  match s with
  | [] => match cur with [] => [] | _ :: _ => [rev cur] end
  | c :: s' =>
      if is_linebreak c then
        match s' with
        | c' :: s'' =>
            if (c =? CR) && (c' =? LF)
            then rev cur :: splitlines_from [] s''
            else rev cur :: splitlines_from [] s'
        | [] => [rev cur]
        end
      else splitlines_from (c :: cur) s'
  end.

Definition str_splitlines (text : str) : list str := splitlines_from [] text.

(** [text.split()]: skip whitespace, emit each maximal run of other
    characters. *)
Fixpoint split_from (cur : str) (s : str) : list str :=
  match s with
  | [] => match cur with [] => [] | _ :: _ => [rev cur] end
  | c :: s' =>
      if is_space c then
        match cur with
        | [] => split_from [] s'
        | _ :: _ => rev cur :: split_from [] s'
        end
      else split_from (c :: cur) s'
  end.

Definition str_split (text : str) : list str := split_from [] text.

(** [len] *)
Definition len {A : Type} (l : list A) : Z := Z.of_nat (length l).

Definition python_analyze_text (text : str) : Z * Z * Z :=
  let lines := len (str_splitlines text) in
  let words := len (str_split text) in
  let chars := len text in
  (lines, words, chars).

(** *** The counts in the words of the specification *)

(** Line boundaries: every line-break character, except an LF that
    directly follows a CR (the pair is one boundary). *)
Fixpoint line_boundaries (after_cr : bool) (s : str) : Z :=
  match s with
  | [] => 0
  | c :: s' =>
      (if is_linebreak c && negb (after_cr && (c =? LF)) then 1 else 0)
      + line_boundaries (c =? CR) s'
  end.

(** Is there a non-empty fragment after the last boundary? *)
Definition open_fragment (s : str) : Z :=
  match last s with
  | Some c => if is_linebreak c then 0 else 1
  | None => 0
  end.

(** Line segments: one per boundary, and one for a non-empty rest; a
    trailing newline adds nothing. *)
Definition line_segments (text : str) : Z :=
  line_boundaries false text + open_fragment text.

(** Tokens: the positions where a non-whitespace character follows
    whitespace or starts the text. *)
Fixpoint token_starts (after_space : bool) (s : str) : Z :=
  match s with
  | [] => 0
  | c :: s' =>
      (if negb (is_space c) && after_space then 1 else 0)
      + token_starts (is_space c) s'
  end.

Definition word_tokens (text : str) : Z := token_starts true text.

(** ** [benchmark_function]

<<
def benchmark_function(func, *args, iterations=1, name="Function"):
    start = time.perf_counter()
    for _ in range(iterations):
        result = func( *args)
    end = time.perf_counter()
    avg_time = (end - start) / iterations
    print(f"  {name}: {avg_time:.6f}s per call ({iterations} iterations)")
    return result, avg_time
>>
    The harness runs in a world: the state the callable works on, the
    reading of the monotonic clock, what was printed, and (a ghost
    field) how many times the harness has invoked the callable. Clock
    readings are rationals, an exact stand-in for the float seconds of
    [time.perf_counter]. *)

(** What the [print] line shows. *)
Record report : Type := Report {
  report_name : string;
  report_avg_time : Q;
  report_iterations : Z
}.

(** [x / n] for a float [x] and an int [n]; exact here, rounded to the
    nearest float in the interpreter. *)
Definition py_truediv (x : Q) (n : Z) : outcome Q :=
  if n =? 0 then Raise ZeroDivisionError else Ret (x / inject_Z n)%Q.

(** Reading a local variable that a loop may have left unassigned. *)
Definition load_local {A : Type} (v : option A) : outcome A :=
  match v with
  | Some a => Ret a
  | None => Raise UnboundLocalError
  end.

Section Harness.
Context {St Args R : Type}.

Record world : Type := World {
  state : St;
  clock : Q;
  calls : nat;
  stdout : list report
}.

(** A computation in the world: its outcome and the world it leaves,
    also when it raises. *)
Definition io (A : Type) : Type := world -> outcome A * world.

Definition io_ret {A : Type} (a : A) : io A := fun w => (Ret a, w).

Definition io_bind {A B : Type} (m : io A) (k : A -> io B) : io B :=
  fun w =>
    match m w with
    | (Ret a, w') => k a w'
    | (Raise e, w') => (Raise e, w')
    end.

Definition io_lift {A : Type} (o : outcome A) : io A := fun w => (o, w).

Local Notation "x <~ m ;; k" := (io_bind m (fun x => k))
  (at level 100, m at next level, right associativity).

(** A callable: from the arguments, the state and the time of the
    call to an outcome, the new state and the time when it ends. *)
Definition callable : Type := Args -> St * Q -> outcome R * (St * Q).

(** The clock never goes back while the callable runs. *)
Definition clock_monotone (func : callable) : Prop :=
  forall args s t, (t <= snd (snd (func args (s, t))))%Q.

(** [time.perf_counter()]: the reading of the clock. Here time passes
    only while the callable runs; the harness's own steps take none. *)
Definition perf_counter : io Q := fun w => (Ret (clock w), w).

(** [func( *args)], counted. *)
Definition invoke (func : callable) (args : Args) : io R :=
  fun w =>
    let '(r, (s', t')) := func args (state w, clock w) in
    (r, {| state := s'; clock := t'; calls := S (calls w);
           stdout := stdout w |}).

(** [print(...)] *)
Definition print (line : report) : io unit :=
  fun w =>
    (Ret tt, {| state := state w; clock := clock w; calls := calls w;
                stdout := stdout w ++ [line] |}).

(** [for x in xs: body] in the world; [l] holds the locals the body
    assigns. *)
Fixpoint for_each_io {L : Type} (xs : list Z) (body : Z -> L -> io L) (l : L)
  : io L :=
  match xs with
  | [] => io_ret l
  | x :: xs' => io_bind (body x l) (fun l' => for_each_io xs' body l')
  end.

(** The body of the timing loop: [result = func( *args)]. *)
Definition loop_body (func : callable) (args : Args)
  : Z -> option R -> io (option R) :=
  fun _ _ => io_bind (invoke func args) (fun r => io_ret (Some r)).

Definition benchmark_function
    (func : callable) (args : Args) (iterations : Z) (name : string)
  : io (R * Q) :=
  start <~ perf_counter ;;
  result <~ for_each_io (py_range2 0 iterations) (loop_body func args) None ;;
  end_ <~ perf_counter ;;
  avg_time <~ io_lift (py_truediv (end_ - start) iterations) ;;
  printed <~ print (Report name avg_time iterations) ;;
  result <~ io_lift (load_local result) ;;
  io_ret (result, avg_time).

(** The keyword defaults: [iterations=1, name="Function"]. *)
Definition benchmark_function_default (func : callable) (args : Args)
  : io (R * Q) :=
  benchmark_function func args 1 "Function".

(** *** Invocations in a row, as a reference for the loop *)

(** The outcome of the [n+1]-th of the invocations made one after the
    other, or the first failure before it, with the state and time
    reached. *)
Fixpoint nth_call (func : callable) (args : Args) (n : nat) (st : St * Q)
  : outcome R * (St * Q) :=
  match n with
  | O => func args st
  | S n' =>
      match func args st with
      | (Ret _, st') => nth_call func args n' st'
      | (Raise e, st') => (Raise e, st')
      end
  end.

(** How many invocations that takes: [n+1], or fewer when one fails. *)
Fixpoint calls_made (func : callable) (args : Args) (n : nat) (st : St * Q)
  : nat :=
  match n with
  | O => 1
  | S n' =>
      match func args st with
      | (Ret _, st') => S (calls_made func args n' st')
      | (Raise _, _) => 1
      end
  end.

(** The world after [k] invocations that ended in state and time [st]. *)
Definition world_after (w : world) (st : St * Q) (k : nat) : world :=
  {| state := fst st; clock := snd st; calls := calls w + k;
     stdout := stdout w |}.
End Harness.

Arguments world : clear implicits.
Arguments callable : clear implicits.

(** A reference algorithm as a callable: it ignores and keeps the state
    and takes [cost] seconds. *)
Definition pure_callable {St A B : Type} (f : A -> outcome B) (cost : Q)
  : callable St A B :=
  fun a '(s, t) => (f a, (s, (t + cost)%Q)).

(** Two callables to try the harness on: one returns how often it was
    called before, the other does so twice and raises from then on. *)
Definition counting : callable nat unit nat :=
  fun _ '(n, t) => (Ret n, (S n, (t + 1)%Q)).

Definition fails_third : callable nat unit nat :=
  fun _ '(n, t) =>
    if (n <? 2)%nat then (Ret n, (S n, (t + 1)%Q))
    else (Raise (UserError "third call"), (S n, (t + 1)%Q)).

Definition fresh_world : world nat :=
  {| state := O; clock := 0%Q; calls := O; stdout := [] |}.

(** ** Further definitions for the properties beyond the stated ones *)

(** [python_fibonacci] with a ghost counter: the outcome and the number
    of activations of the function the call makes, itself included. *)
Equations? python_fibonacci_counted (n : Z) : outcome Z * Z
  by wf (Z.to_nat n) lt :=
  python_fibonacci_counted n with Z_le_gt_dec n 1 := {
    | left _ => (Ret n, 1)
    | right _ =>
        match python_fibonacci_counted (n - 1) with
        | (Ret a, ca) =>
            match python_fibonacci_counted (n - 2) with
            | (Ret b, cb) => (Ret (a + b), 1 + ca + cb)
            | (Raise e, cb) => (Raise e, 1 + ca + cb)
            end
        | (Raise e, ca) => (Raise e, 1 + ca)
        end }.
Proof. all: lia. Qed.

(** [python_fibonacci] with a ghost depth: the outcome and the greatest
    number of activations on the stack at once. The two recursive calls
    run one after the other, so the deeper of them counts. *)
Equations? python_fibonacci_depth (n : Z) : outcome Z * Z
  by wf (Z.to_nat n) lt :=
  python_fibonacci_depth n with Z_le_gt_dec n 1 := {
    | left _ => (Ret n, 1)
    | right _ =>
        match python_fibonacci_depth (n - 1) with
        | (Ret a, da) =>
            match python_fibonacci_depth (n - 2) with
            | (Ret b, db) => (Ret (a + b), 1 + Z.max da db)
            | (Raise e, db) => (Raise e, 1 + Z.max da db)
            end
        | (Raise e, da) => (Raise e, 1 + da)
        end }.
Proof. all: lia. Qed.

(** [text * k] on strings. *)
Definition py_str_mul (text : str) (k : Z) : str :=
  concat (replicate (Z.to_nat k) text).

(** Does the text start, or end, with a character in the class [P]? *)
Definition starts_in (P : Z -> bool) (s : str) : bool :=
  match head s with
  | Some c => P c
  | None => false
  end.

Definition ends_in (P : Z -> bool) (s : str) : bool :=
  match last s with
  | Some c => P c
  | None => false
  end.

Definition is_nonempty (s : str) : bool :=
  match s with
  | [] => false
  | _ :: _ => true
  end.

(** What the callable returns and the state it leaves do not depend on
    the time of the call. *)
Definition time_independent {St Args R : Type} (func : callable St Args R)
  : Prop :=
  forall args s t t',
    fst (func args (s, t)) = fst (func args (s, t')) /\
    fst (snd (func args (s, t))) = fst (snd (func args (s, t'))).

(** ** The reference algorithms over the object store

    Whether a second call with the same input can differ from the first
    is a question about what a call can touch. Here the algorithms are
    embedded once more with that made explicit: the list objects of the
    interpreter live in a store and are passed by reference; integers,
    booleans, strings and tuples are immutable and stay values. *)

Inductive pyval : Type :=
| VInt (z : Z)
| VBool (b : bool)
| VStr (s : str).

(** The store: the list objects, by address. *)
Abbreviation heap := (list (list pyval)).
Abbreviation ref := nat.

(** A dynamic type error of the interpreter, and the failure of the
    store on an address that holds no object (no Python program can
    make one up). *)
Definition TypeError : exn := UserError "TypeError".
Definition NoSuchObject : exn := UserError "no such object".

(** A computation on the store. *)
Definition hc (A : Type) : Type := heap -> outcome A * heap.

Definition hc_ret {A : Type} (a : A) : hc A := fun h => (Ret a, h).

Definition hc_bind {A B : Type} (m : hc A) (k : A -> hc B) : hc B :=
  fun h =>
    match m h with
    | (Ret a, h') => k a h'
    | (Raise e, h') => (Raise e, h')
    end.

Definition hc_lift {A : Type} (o : outcome A) : hc A := fun h => (o, h).

Notation "x <~ m ;; k" := (hc_bind m (fun x => k))
  (at level 100, m at next level, right associativity).

(** A new list object: [[...]], [l * n], a comprehension, [splitlines]. *)
Definition new_list (l : list pyval) : hc ref :=
  fun h => (Ret (length h), h ++ [l]).

(** The elements of the list object at [r]. *)
Definition deref (r : ref) : hc (list pyval) :=
  fun h =>
    match h !! r with
    | Some l => (Ret l, h)
    | None => (Raise NoSuchObject, h)
    end.

(** [r[i]] *)
Definition obj_getitem (r : ref) (i : Z) : hc pyval :=
  l <~ deref r ;; hc_lift (list_getitem l i).

(** [r[i] = v]: the object is changed in place. *)
Definition obj_setitem (r : ref) (i : Z) (v : pyval) : hc unit :=
  fun h =>
    match h !! r with
    | Some l =>
        match list_setitem l i v with
        | Ret l' => (Ret tt, <[r := l']> h)
        | Raise e => (Raise e, h)
        end
    | None => (Raise NoSuchObject, h)
    end.

(** [len(r)] *)
Definition obj_len (r : ref) : hc Z :=
  l <~ deref r ;; hc_ret (len l).

(** [r * n]: a new list of [n] copies of the elements. *)
Definition obj_mul (r : ref) (n : Z) : hc ref :=
  l <~ deref r ;; new_list (concat (replicate (Z.to_nat n) l)).

(** The truth value of [if v:]. *)
Definition truthy (v : pyval) : bool :=
  match v with
  | VInt z => negb (z =? 0)
  | VBool b => b
  | VStr s => is_nonempty s
  end.

(** [acc + v] for an integer [acc]; a [bool] counts as [0] or [1]. *)
Definition py_add (acc : Z) (v : pyval) : outcome Z :=
  match v with
  | VInt z => Ret (acc + z)
  | VBool b => Ret (acc + Z.b2z b)
  | VStr _ => Raise TypeError
  end.

(** [sum(l)], from [acc]. *)
Fixpoint sum_values (acc : Z) (l : list pyval) : outcome Z :=
  match l with
  | [] => Ret acc
  | v :: l' => acc' <- py_add acc v ;; sum_values acc' l'
  end.

(** [for x in xs: body] on the store. *)
Fixpoint for_each_st (xs : list Z) (body : Z -> hc unit) : hc unit :=
  match xs with
  | [] => hc_ret tt
  | x :: xs' => u <~ body x ;; for_each_st xs' body
  end.

(** [python_sum_large_vector], given the list object. *)
Definition python_sum_large_vector_st (numbers : ref) : hc Z :=
  l <~ deref numbers ;; hc_lift (sum_values 0 l).

(** [python_fibonacci], the store handed from call to call. *)
Equations? python_fibonacci_st (n : Z) (h : heap) : outcome Z * heap
  by wf (Z.to_nat n) lt :=
  python_fibonacci_st n h with Z_le_gt_dec n 1 := {
    | left _ => (Ret n, h)
    | right _ =>
        match python_fibonacci_st (n - 1) h with
        | (Ret a, h1) =>
            match python_fibonacci_st (n - 2) h1 with
            | (Ret b, h2) => (Ret (a + b), h2)
            | (Raise e, h2) => (Raise e, h2)
            end
        | (Raise e, h1) => (Raise e, h1)
        end }.
Proof. all: lia. Qed.

(** [python_find_primes]: the sieve is a list object, changed in place;
    the result is a new list object. *)
Definition sieve_strike_st (limit i : Z) (sieve : ref) : hc unit :=
  js <~ hc_lift (py_range3 (i * i) (limit + 1) i) ;;
  for_each_st js (fun j => obj_setitem sieve j (VBool false)).

Definition sieve_step_st (limit : Z) (sieve : ref) (i : Z) : hc unit :=
  b <~ obj_getitem sieve i ;;
  if truthy b then sieve_strike_st limit i sieve else hc_ret tt.

Definition sieve_collect_st (cells : list pyval) : list pyval :=
  map VInt
    (map fst (List.filter (fun p : Z * pyval => truthy (snd p)) (enumerate cells))).

Definition python_find_primes_st (limit : Z) : hc ref :=
  if limit <? 2 then new_list []
  else
    one <~ new_list [VBool true] ;;
    sieve <~ obj_mul one (limit + 1) ;;
    u0 <~ obj_setitem sieve 0 (VBool false) ;;
    u1 <~ obj_setitem sieve 1 (VBool false) ;;
    u <~ for_each_st (py_range2 2 (int_pow_half limit + 1))
           (sieve_step_st limit sieve) ;;
    cells <~ deref sieve ;;
    new_list (sieve_collect_st cells).

(** [python_analyze_text]: [splitlines] and [split] make new lists. *)
Definition python_analyze_text_st (text : str) : hc (Z * Z * Z) :=
  line_list <~ new_list (map VStr (str_splitlines text)) ;;
  lines <~ obj_len line_list ;;
  word_list <~ new_list (map VStr (str_split text)) ;;
  words <~ obj_len word_list ;;
  hc_ret (lines, words, len text).

(** Two calls, the second on the store the first one left. *)
Definition run_twice {A : Type} (call : hc A) (h : heap)
  : outcome A * outcome A * heap :=
  let '(r1, h1) := call h in
  let '(r2, h2) := call h1 in
  (r1, r2, h2).

Lemma fib_small (n : Z) : n <= 1 -> python_fibonacci n = Ret n.
Proof.
  intros H. rewrite python_fibonacci_equation_1.
  destruct (Z_le_gt_dec n 1); [reflexivity | lia].
Qed.

Lemma fib_step_raw (n : Z) :
  1 < n ->
  python_fibonacci n =
    (a <- python_fibonacci (n - 1) ;; b <- python_fibonacci (n - 2) ;; Ret (a + b)).
Proof.
  intros H. rewrite python_fibonacci_equation_1.
  destruct (Z_le_gt_dec n 1); [lia | reflexivity].
Qed.

Lemma fib_pair_S (k : nat) :
  fib_pair (S k) = (snd (fib_pair k), fst (fib_pair k) + snd (fib_pair k)).
Proof. simpl. destruct (fib_pair k); reflexivity. Qed.

Lemma fib_nat_pair (k : nat) :
  python_fibonacci (Z.of_nat k) = Ret (fst (fib_pair k)) /\
  python_fibonacci (Z.of_nat (S k)) = Ret (snd (fib_pair k)).
Proof.
  induction k as [|k [IHa IHb]].
  - split; cbn; apply fib_small; lia.
  - split.
    + rewrite fib_pair_S. exact IHb.
    + rewrite fib_step_raw by lia.
      replace (Z.of_nat (S (S k)) - 1) with (Z.of_nat (S k)) by lia.
      replace (Z.of_nat (S (S k)) - 2) with (Z.of_nat k) by lia.
      rewrite IHb, IHa, fib_pair_S. simpl. f_equal. lia.
Qed.

(** Every call returns: the recursion never raises and always ends. *)
Lemma fib_total (n : Z) : exists v, python_fibonacci n = Ret v.
Proof.
  destruct (Z_le_gt_dec n 1) as [Hle | Hgt].
  - exists n. now apply fib_small.
  - exists (fst (fib_pair (Z.to_nat n))).
    rewrite <- (Z2Nat.id n) at 1 by lia. apply fib_nat_pair.
Qed.

Example find_primes_30 :
  python_find_primes 30 = Ret [2; 3; 5; 7; 11; 13; 17; 19; 23; 29].
Proof. vm_compute. reflexivity. Qed.

(** ** Facts about the built-ins *)

Section Builtins.
Context {A : Type}.
Implicit Types (l : list A) (i : Z).

Lemma py_index_inside l i :
  0 <= i < Z.of_nat (length l) -> py_index l i = Ret (Z.to_nat i).
Proof.
  intros [H0 H1]. unfold py_index.
  apply Z.leb_le in H0. apply Z.ltb_lt in H1. now rewrite H0, H1.
Qed.

Lemma list_setitem_inside l i v :
  0 <= i < Z.of_nat (length l) ->
  list_setitem l i v = Ret (<[Z.to_nat i := v]> l).
Proof. intros H. unfold list_setitem. now rewrite py_index_inside. Qed.

Lemma list_getitem_inside l i x :
  0 <= i -> l !! Z.to_nat i = Some x -> list_getitem l i = Ret x.
Proof.
  intros H0 Hx. unfold list_getitem.
  rewrite py_index_inside.
  - simpl. now rewrite Hx.
  - apply lookup_lt_Some in Hx. lia.
Qed.

Lemma list_getitem_outside l i :
  Z.of_nat (length l) <= i -> list_getitem l i = Raise IndexError.
Proof.
  intros H. unfold list_getitem, py_index.
  replace (i <? Z.of_nat (length l)) with false by (symmetry; apply Z.ltb_ge; lia).
  replace (i <? 0) with false by (symmetry; apply Z.ltb_ge; lia).
  now rewrite !andb_false_r.
Qed.
End Builtins.

Lemma py_range2_nil (a b : Z) : b <= a -> py_range2 a b = [].
Proof.
  intros H. unfold py_range2.
  replace (Z.to_nat (b - a)) with O by lia. reflexivity.
Qed.

Lemma py_range2_cons (a b : Z) : a < b -> py_range2 a b = a :: py_range2 (a + 1) b.
Proof.
  intros H. unfold py_range2.
  replace (Z.to_nat (b - a)) with (S (Z.to_nat (b - (a + 1)))) by lia.
  cbn [seq map]. f_equal; [lia |].
  rewrite <- seq_shift, map_map. apply map_ext. intros k. lia.
Qed.

Lemma py_range2_In (a b j : Z) : In j (py_range2 a b) <-> a <= j < b.
Proof.
  unfold py_range2. rewrite in_map_iff. split.
  - intros (k & <- & Hk). apply in_seq in Hk. lia.
  - intros H. exists (Z.to_nat (j - a)). split; [lia |]. apply in_seq. lia.
Qed.

(** The elements of [range(start, stop, step)] for a positive step:
    the numbers [start + k*step] below [stop]. *)
Lemma py_range3_pos (start stop step : Z) :
  0 < step ->
  exists js, py_range3 start stop step = Ret js /\
    forall j, In j js <-> (start <= j < stop /\ (step | j - start)).
Proof.
  intros Hstep. unfold py_range3.
  replace (step =? 0) with false by (symmetry; apply Z.eqb_neq; lia).
  eexists. split; [reflexivity |]. intros j.
  rewrite in_map_iff. unfold range_len.
  replace (0 <? step) with true by (symmetry; apply Z.ltb_lt; lia).
  destruct (Z.ltb_spec start stop) as [Hlt | Hge].
  - pose proof (Z.div_pos (stop - start - 1) step ltac:(lia) Hstep) as Hq.
    split.
    + intros (k & <- & Hk). apply in_seq in Hk.
      assert (Z.of_nat k <= (stop - start - 1) / step) as Hk' by lia.
      assert (Z.of_nat k * step <= stop - start - 1) as Hb.
      { pose proof (Z.mul_div_le (stop - start - 1) step Hstep). nia. }
      split; [nia |]. exists (Z.of_nat k). lia.
    + intros (Hj & q & Hq'). exists (Z.to_nat q).
      assert (0 <= q) by nia.
      split; [rewrite Z2Nat.id by lia; lia |].
      apply in_seq. split; [lia |].
      assert (q <= (stop - start - 1) / step).
      { apply Z.div_le_lower_bound; [lia | nia]. }
      lia.
  - simpl. split.
    + intros (k & _ & []).
    + intros [Hj _]. lia.
Qed.

(** ** The sieve invariant *)

(** Striking a list of in-range indices never raises, keeps the length,
    clears exactly the listed cells. *)
Lemma for_each_strike (js : list Z) (s : list bool) :
  (forall j, In j js -> 0 <= j < Z.of_nat (length s)) ->
  exists s', for_each js (fun j s => list_setitem s j false) s = Ret s' /\
    length s' = length s /\
    forall n : nat,
      (In (Z.of_nat n) js -> (n < length s)%nat -> s' !! n = Some false) /\
      (~ In (Z.of_nat n) js -> s' !! n = s !! n).
Proof.
  revert s. induction js as [| j js IH]; intros s Hin.
  - exists s. split; [reflexivity |]. split; [reflexivity |].
    intros n. split; [intros [] | reflexivity].
  - assert (0 <= j < Z.of_nat (length s)) as Hj by (apply Hin; now left).
    cbn [for_each]. rewrite list_setitem_inside by exact Hj. cbn [bind].
    destruct (IH (<[Z.to_nat j := false]> s)) as (s' & Hrun & Hlen & Hget).
    { intros j' Hj'. rewrite length_insert. apply Hin. now right. }
    exists s'. split; [exact Hrun |].
    rewrite length_insert in Hlen. split; [exact Hlen |].
    intros n. destruct (Hget n) as [Hyes Hno]. split.
    + intros [-> | Hn] Hlt.
      * destruct (in_dec Z.eq_dec (Z.of_nat n) js) as [Hd | Hd].
        -- apply Hyes; [exact Hd | now rewrite length_insert].
        -- rewrite Hno by exact Hd. rewrite Nat2Z.id.
           now apply list_lookup_insert_eq.
      * apply Hyes; [exact Hn | now rewrite length_insert].
    + intros Hnot. rewrite Hno by (intros Hn; apply Hnot; now right).
      apply list_lookup_insert_ne. intros <-. apply Hnot. left. lia.
Qed.


Lemma sieve_inv_init (limit : Z) :
  2 <= limit ->
  sieve_inv limit 1
    (<[Z.to_nat 1 := false]> (<[Z.to_nat 0 := false]>
       (replicate (Z.to_nat (limit + 1)) true))).
Proof.
  intros Hl. split.
  - now rewrite !length_insert, length_replicate.
  - intros j Hj.
    destruct (Z.eq_dec j 0) as [-> | H0]; [| destruct (Z.eq_dec j 1) as [-> | H1]].
    + exists false. split.
      * rewrite list_lookup_insert_ne by lia.
        apply list_lookup_insert_eq. rewrite length_replicate. lia.
      * unfold unstruck. split; [discriminate | lia].
    + exists false. split.
      * apply list_lookup_insert_eq. rewrite length_insert, length_replicate. lia.
      * unfold unstruck. split; [discriminate | lia].
    + exists true. split.
      * rewrite !list_lookup_insert_ne by lia.
        apply lookup_replicate_2. lia.
      * unfold unstruck. split; [| reflexivity].
        intros _. split; [lia |]. intros d Hd. lia.
Qed.

(** One round of the outer loop moves the invariant from [i - 1] to [i]. *)
Lemma sieve_step_inv (limit i : Z) (s : list bool) :
  2 <= i <= limit ->
  sieve_inv limit (i - 1) s ->
  exists s', sieve_step limit i s = Ret s' /\ sieve_inv limit i s'.
Proof.
  intros Hi [Hlen Hinv].
  destruct (Hinv i ltac:(lia)) as (bi & Hbi & Hbi_spec).
  unfold sieve_step. rewrite (list_getitem_inside s i bi) by (lia || exact Hbi).
  cbn [bind]. destruct bi.
  - (* [i] is still marked: strike its multiples *)
    unfold sieve_strike.
    destruct (py_range3_pos (i * i) (limit + 1) i ltac:(lia)) as (js & -> & Hjs).
    cbn [bind].
    destruct (for_each_strike js s) as (s' & Hrun & Hlen' & Hget).
    { intros j Hj. apply Hjs in Hj. rewrite Hlen. nia. }
    exists s'. split; [exact Hrun |]. split; [congruence |].
    intros j Hj. destruct (Hinv j Hj) as (b & Hb & Hb_spec).
    destruct (Hget (Z.to_nat j)) as [Hyes Hno].
    rewrite Z2Nat.id in Hyes, Hno by lia.
    destruct (in_dec Z.eq_dec j js) as [Hd | Hd].
    + exists false. split; [apply Hyes; [exact Hd | lia] |].
      split; [discriminate |]. intros [_ Hun]. exfalso.
      apply Hjs in Hd. destruct Hd as [Hr Hdiv].
      apply (Hun i); [lia | lia |].
      replace j with ((j - i * i) + i * i) by lia.
      apply Z.divide_add_r; [exact Hdiv | apply Z.divide_factor_l].
    + exists b. split; [rewrite Hno by exact Hd; exact Hb |].
      rewrite Hb_spec. unfold unstruck. split.
      * intros [H2 Hun]. split; [exact H2 |]. intros d Hdr Hsq Hdiv.
        destruct (Z.eq_dec d i) as [-> | Hne].
        -- apply Hd. apply Hjs. split; [lia |].
           apply Z.divide_sub_r; [exact Hdiv | apply Z.divide_factor_l].
        -- apply (Hun d); [lia | exact Hsq | exact Hdiv].
      * intros [H2 Hun]. split; [exact H2 |]. intros d Hdr. apply Hun. lia.
  - (* [i] was struck by a smaller [d]: nothing to do, and nothing missed *)
    exists s. split; [reflexivity |]. split; [exact Hlen |].
    intros j Hj. destruct (Hinv j Hj) as (b & Hb & Hb_spec).
    exists b. split; [exact Hb |]. rewrite Hb_spec. unfold unstruck. split.
    + intros [H2 Hun]. split; [exact H2 |]. intros d Hdr Hsq Hdiv.
      destruct (Z.eq_dec d i) as [-> | Hne].
      * (* some [d0 <= i - 1] with [d0*d0 <= i] divides [i], hence [j] *)
        assert (~ unstruck (i - 1) i) as Hstruck.
        { intros Hu. apply Hbi_spec in Hu. discriminate. }
        apply Hstruck. split; [lia |]. intros d0 Hd0 Hsq0 Hdiv0.
        apply (Hun d0); [exact Hd0 | nia |].
        now apply Z.divide_trans with i.
      * apply (Hun d); [lia | exact Hsq | exact Hdiv].
    + intros [H2 Hun]. split; [exact H2 |]. intros d Hdr. apply Hun. lia.
Qed.

(** The whole outer loop, from [m] up to the bound [r]. *)
Lemma sieve_loop_inv (limit r : Z) :
  r <= limit ->
  forall (k : nat) (m : Z) (s : list bool),
    2 <= m -> m + Z.of_nat k = r + 1 ->
    sieve_inv limit (m - 1) s ->
    exists s', for_each (py_range2 m (r + 1)) (sieve_step limit) s = Ret s' /\
               sieve_inv limit r s'.
Proof.
  intros Hr. induction k as [| k IH]; intros m s Hm Hk Hinv.
  - rewrite py_range2_nil by lia. exists s. split; [reflexivity |].
    replace r with (m - 1) by lia. exact Hinv.
  - rewrite py_range2_cons by lia. cbn [for_each].
    destruct (sieve_step_inv limit m s ltac:(lia) Hinv) as (s1 & -> & Hinv1).
    cbn [bind]. apply IH; [lia | lia |].
    now replace (m + 1 - 1) with m by lia.
Qed.

(** Once the loop has passed the square root, [unstruck] is primality. *)
Lemma unstruck_prime (r j : Z) :
  Z.sqrt j <= r -> (unstruck r j <-> Z.prime j).
Proof.
  intros Hr. unfold unstruck, Z.prime. split.
  - intros [H2 Hun]. split; [lia |]. intros n Hn [q Hq].
    assert (1 < q < j) as Hqr by nia.
    assert (n * n <= j \/ q * q <= j) as [Hsq | Hsq] by nia.
    + apply (Hun n); [| exact Hsq | now exists q].
      split; [lia |]. apply Z.le_trans with (Z.sqrt j); [| exact Hr].
      apply Z.sqrt_le_square; lia.
    + apply (Hun q); [| exact Hsq | exists n; lia].
      split; [lia |]. apply Z.le_trans with (Z.sqrt j); [| exact Hr].
      apply Z.sqrt_le_square; lia.
  - intros [H1 Hp]. split; [lia |]. intros d Hd Hsq Hdiv.
    apply (Hp d); [nia | exact Hdiv].
Qed.

(** The comprehension keeps the indices of the [True] cells, in order. *)
Lemma collect_from_In (k : Z) (l : list bool) (p : Z) :
  In p (map fst (List.filter (fun q : Z * bool => snd q) (enumerate_from k l))) <->
  k <= p /\ l !! Z.to_nat (p - k) = Some true.
Proof.
  revert k. induction l as [| x l IH]; intros k.
  - cbn. split; [intros [] | intros [_ H]; discriminate].
  - cbn [enumerate_from List.filter snd].
    assert (In p (map fst (List.filter (fun q : Z * bool => snd q)
                             (enumerate_from (k + 1) l))) <->
            k < p /\ (x :: l) !! Z.to_nat (p - k) = Some true) as Htail.
    { rewrite IH. split.
      - intros [Hk Hl]. split; [lia |].
        replace (Z.to_nat (p - k)) with (S (Z.to_nat (p - (k + 1)))) by lia.
        exact Hl.
      - intros [Hk Hl]. split; [lia |].
        replace (Z.to_nat (p - k)) with (S (Z.to_nat (p - (k + 1)))) in Hl by lia.
        exact Hl. }
    destruct x; cbn [map fst In]; rewrite ?Htail; split.
    + intros [<- | [Hk Hl]].
      * split; [lia |]. now replace (Z.to_nat (k - k)) with O by lia.
      * split; [lia | exact Hl].
    + intros [Hk Hl]. destruct (Z.eq_dec k p) as [-> | Hne]; [now left |].
      right. split; [lia | exact Hl].
    + intros [Hk Hl]. split; [lia | exact Hl].
    + intros [Hk Hl]. split; [| exact Hl].
      destruct (Z.eq_dec k p) as [-> | Hne]; [| lia].
      replace (Z.to_nat (p - p)) with O in Hl by lia. discriminate.
Qed.

Lemma collect_from_sorted (k : Z) (l : list bool) :
  StronglySorted Z.lt
    (map fst (List.filter (fun q : Z * bool => snd q) (enumerate_from k l))).
Proof.
  revert k. induction l as [| x l IH]; intros k.
  - constructor.
  - cbn [enumerate_from List.filter snd]. destruct x; [| apply IH].
    cbn [map fst]. constructor; [apply IH |].
    apply List.Forall_forall. intros p Hp. apply collect_from_In in Hp. lia.
Qed.

Lemma sieve_collect_In (s : list bool) (p : Z) :
  In p (sieve_collect s) <-> 0 <= p /\ s !! Z.to_nat p = Some true.
Proof.
  unfold sieve_collect, enumerate. rewrite collect_from_In.
  now replace (p - 0) with p by lia.
Qed.

(** *** The sieve is right for every bound between the square root and
    the limit *)
Lemma find_primes_upto_spec (r limit : Z) :
  2 <= limit -> Z.sqrt limit <= r <= limit ->
  exists ps, find_primes_upto r limit = Ret ps /\
    StronglySorted Z.lt ps /\
    forall p, In p ps <-> (Z.prime p /\ p <= limit).
Proof.
  intros Hl [Hlo Hhi]. unfold find_primes_upto.
  replace (limit <? 2) with false by (symmetry; apply Z.ltb_ge; lia).
  cbv zeta.
  rewrite list_setitem_inside by (rewrite length_replicate; lia). cbn [bind].
  rewrite list_setitem_inside by (rewrite length_insert, length_replicate; lia).
  cbn [bind].
  assert (1 <= Z.sqrt limit) as Hs.
  { apply Z.sqrt_le_square; lia. }
  destruct (sieve_loop_inv limit r Hhi (Z.to_nat (r - 1)) 2
              (<[Z.to_nat 1 := false]> (<[Z.to_nat 0 := false]>
                 (replicate (Z.to_nat (limit + 1)) true))))
    as (s & -> & Hlen & Hinv); [lia | lia | now apply sieve_inv_init |].
  cbn [bind]. eexists. split; [reflexivity |].
  split; [apply collect_from_sorted |].
  intros p. rewrite sieve_collect_In. split.
  - intros [H0 Hp].
    assert (p <= limit) as Hple.
    { apply lookup_lt_Some in Hp. lia. }
    split; [| exact Hple].
    destruct (Hinv p ltac:(lia)) as (b & Hb & Hspec).
    apply (unstruck_prime r).
    + apply Z.le_trans with (Z.sqrt limit); [now apply Z.sqrt_le_mono | exact Hlo].
    + apply Hspec. congruence.
  - intros [Hp Hple]. assert (2 <= p) as H2 by (destruct Hp; lia).
    split; [lia |].
    destruct (Hinv p ltac:(lia)) as (b & Hb & Hspec).
    rewrite Hb. f_equal. apply Hspec. apply (unstruck_prime r); [| exact Hp].
    apply Z.le_trans with (Z.sqrt limit); [now apply Z.sqrt_le_mono | exact Hlo].
Qed.

(** ** Summation *)

Lemma fold_left_add_shift (l : list Z) (a : Z) :
  fold_left Z.add l a = a + fold_left Z.add l 0.
Proof.
  revert a. induction l as [| x l IH]; intros a; cbn [fold_left].
  - lia.
  - rewrite (IH (a + x)), (IH (0 + x)). lia.
Qed.

Lemma py_sum_cons (x : Z) (l : list Z) : py_sum (x :: l) = x + py_sum l.
Proof. unfold py_sum. cbn [fold_left]. rewrite fold_left_add_shift. lia. Qed.

Lemma py_sum_app (l1 l2 : list Z) : py_sum (l1 ++ l2) = py_sum l1 + py_sum l2.
Proof.
  unfold py_sum. rewrite fold_left_app.
  now rewrite (fold_left_add_shift l2 (fold_left Z.add l1 0)).
Qed.

Lemma py_sum_rev (l : list Z) : py_sum (rev l) = py_sum l.
Proof.
  induction l as [| x l IH]; [reflexivity |].
  cbn [rev]. rewrite py_sum_app, IH, !py_sum_cons. unfold py_sum at 2. cbn. lia.
Qed.

(** Gauss: [0 + 1 + ... + (n-1)], doubled to stay in the integers. *)
Lemma py_sum_range_nat (k : nat) :
  2 * py_sum (py_range2 0 (Z.of_nat k)) = Z.of_nat k * (Z.of_nat k - 1).
Proof.
  induction k as [| k IH].
  - reflexivity.
  - unfold py_range2 in *.
    replace (Z.to_nat (Z.of_nat (S k) - 0)) with (S k) by lia.
    replace (Z.to_nat (Z.of_nat k - 0)) with k in IH by lia.
    rewrite seq_S, map_app, py_sum_app. cbn [map].
    rewrite py_sum_cons. unfold py_sum at 2. cbn [fold_left]. lia.
Qed.

Lemma py_sum_range (n : Z) :
  0 <= n -> 2 * py_sum (py_range2 0 n) = n * (n - 1).
Proof.
  intros Hn. rewrite <- (Z2Nat.id n) by exact Hn. apply py_sum_range_nat.
Qed.

(** ** Text analysis *)

Lemma split_from_count (s cur : str) :
  len (split_from cur s) =
    match cur with
    | [] => token_starts true s
    | _ :: _ => 1 + token_starts false s
    end.
Proof.
  unfold len. revert cur. induction s as [| c s IH]; intros cur.
  - destruct cur; reflexivity.
  - cbn [split_from token_starts]. destruct (is_space c) eqn:Hc.
    + destruct cur; cbn [length negb andb]; rewrite ?Nat2Z.inj_succ, (IH []); lia.
    + rewrite (IH (c :: cur)). destruct cur; cbn [negb andb]; lia.
Qed.

Lemma linebreak_CR (c : Z) : is_linebreak c = false -> (c =? CR) = false.
Proof.
  intros H. destruct (Z.eqb_spec c CR) as [-> | ]; [discriminate H | reflexivity].
Qed.

Lemma splitlines_from_count (s cur : str) :
  len (splitlines_from cur s) =
    line_boundaries false s +
    match last s with
    | Some c => if is_linebreak c then 0 else 1
    | None => match cur with [] => 0 | _ :: _ => 1 end
    end.
Proof.
  unfold len. remember (length s) as n eqn:Hn. revert s cur Hn.
  induction n as [n IH] using lt_wf_ind. intros s cur Hn.
  destruct s as [| c s'].
  - destruct cur; reflexivity.
  - cbn [splitlines_from line_boundaries]. destruct (is_linebreak c) eqn:Hc.
    + destruct s' as [| c' s''].
      * cbn. rewrite Hc. reflexivity.
      * assert (last (c :: c' :: s'') = last (c' :: s'')) as -> by reflexivity.
        destruct ((c =? CR) && (c' =? LF)) eqn:Hpair.
        -- apply andb_true_iff in Hpair. destruct Hpair as [H1 H2].
           apply Z.eqb_eq in H1, H2. subst c c'.
           cbn [length]. rewrite Nat2Z.inj_succ.
           rewrite (IH (length s'') ltac:(cbn in Hn; lia) s'' [] eq_refl).
           cbn [line_boundaries]. destruct s'' as [| d s3]; cbn; [lia |].
           destruct (last (d :: s3)) eqn:E; [lia |].
           apply last_None in E. discriminate E.
        -- cbn [length]. rewrite Nat2Z.inj_succ.
           rewrite (IH (length (c' :: s'')) ltac:(cbn in Hn |- *; lia)
                      (c' :: s'') [] eq_refl).
           cbn [line_boundaries andb negb]. rewrite Hpair. cbn [negb andb].
           destruct (last (c' :: s'')) eqn:E; [lia |].
           apply last_None in E. discriminate E.
    + rewrite (IH (length s') ltac:(cbn in Hn; lia) s' (c :: cur) eq_refl).
      rewrite (linebreak_CR c Hc). cbn [andb].
      destruct s' as [| c' s'']; [cbn; rewrite Hc; lia |].
      assert (last (c :: c' :: s'') = last (c' :: s'')) as -> by reflexivity.
      destruct (last (c' :: s'')) eqn:E; [lia |].
      apply last_None in E. discriminate E.
Qed.

Lemma analyze_text_counts (text : str) :
  python_analyze_text text = (line_segments text, word_tokens text, len text).
Proof.
  unfold python_analyze_text, str_splitlines, str_split.
  rewrite splitlines_from_count, split_from_count.
  unfold line_segments, open_fragment, word_tokens.
  destruct (last text); reflexivity.
Qed.

(** ** The timing loop *)

Section HarnessFacts.
Context {St Args R : Type}.
Implicit Types (func : callable St Args R) (args : Args) (w : world St).

Lemma world_after_0 w : world_after w (state w, clock w) 0 = w.
Proof. destruct w. unfold world_after. cbn. f_equal. lia. Qed.

Lemma invoke_eq func args w :
  invoke func args w =
    (fst (func args (state w, clock w)),
     world_after w (snd (func args (state w, clock w))) 1).
Proof.
  unfold invoke, world_after.
  destruct (func args (state w, clock w)) as [r [s' t']]. cbn.
  do 2 f_equal. lia.
Qed.

(** [n + 1] rounds of the loop are [n + 1] invocations in a row,
    stopped by the first one that raises. *)
Lemma loop_runs_calls func args (n : nat) :
  forall (a : Z) (l : option R) w,
    for_each_io (py_range2 a (a + Z.of_nat (S n))) (loop_body func args) l w =
      (match fst (nth_call func args n (state w, clock w)) with
       | Ret v => Ret (Some v)
       | Raise e => Raise e
       end,
       world_after w (snd (nth_call func args n (state w, clock w)))
         (calls_made func args n (state w, clock w))).
Proof.
  induction n as [| n IH]; intros a l w.
  - rewrite py_range2_cons by lia. rewrite py_range2_nil by lia.
    cbn [for_each_io nth_call calls_made]. unfold loop_body, io_bind, io_ret.
    rewrite invoke_eq.
    destruct (func args (state w, clock w)) as [[v | e] st']; reflexivity.
  - rewrite py_range2_cons by lia.
    replace (a + Z.of_nat (S (S n))) with (a + 1 + Z.of_nat (S n)) by lia.
    cbn [for_each_io nth_call calls_made]. unfold io_bind at 1.
    unfold loop_body at 1. unfold io_bind at 1, io_ret at 1.
    rewrite invoke_eq.
    destruct (func args (state w, clock w)) as [[v | e] st'] eqn:Hcall;
      cbn [fst snd]; [| reflexivity].
    rewrite IH. destruct st' as [s' t']. cbn [world_after state clock fst snd].
    f_equal. unfold world_after. cbn. f_equal. lia.
Qed.


Lemma nth_call_clock func args (n : nat) :
  clock_monotone func ->
  forall st, (snd st <= snd (snd (nth_call func args n st)))%Q.
Proof.
  intros Hmono. induction n as [| n IH]; intros [s t]; cbn [nth_call snd].
  - apply Hmono.
  - pose proof (Hmono args s t) as H1.
    destruct (func args (s, t)) as [[v | e] st']; cbn [snd] in *; [| exact H1].
    eapply Qle_trans; [exact H1 | apply IH].
Qed.

Lemma calls_made_bound func args (n : nat) :
  forall st, (1 <= calls_made func args n st <= S n)%nat.
Proof.
  induction n as [| n IH]; intros st; cbn [calls_made]; [lia |].
  destruct (func args st) as [[v | e] st']; [| lia].
  specialize (IH st'). lia.
Qed.

Lemma calls_made_all func args (n : nat) :
  forall st v st',
    nth_call func args n st = (Ret v, st') ->
    calls_made func args n st = S n.
Proof.
  induction n as [| n IH]; intros st v st' H; cbn [calls_made nth_call] in *.
  - reflexivity.
  - destruct (func args st) as [[v0 | e] st0]; [| discriminate H].
    f_equal. now apply (IH st0 v st').
Qed.

(** The whole harness, for at least one iteration. *)
Lemma benchmark_run func args (k : Z) (name : string) w :
  1 <= k ->
  benchmark_function func args k name w =
    match nth_call func args (Z.to_nat (k - 1)) (state w, clock w) with
    | (Ret v, st') =>
        let avg := ((snd st' - clock w) / inject_Z k)%Q in
        (Ret (v, avg),
         {| state := fst st'; clock := snd st';
            calls := calls w
                     + calls_made func args (Z.to_nat (k - 1)) (state w, clock w);
            stdout := stdout w ++ [Report name avg k] |})
    | (Raise e, st') =>
        (Raise e,
         world_after w st'
           (calls_made func args (Z.to_nat (k - 1)) (state w, clock w)))
    end.
Proof.
  intros Hk. unfold benchmark_function.
  unfold io_bind at 1. unfold perf_counter at 1.
  unfold io_bind at 1.
  replace k with (0 + Z.of_nat (S (Z.to_nat (k - 1)))) at 1 by lia.
  rewrite loop_runs_calls.
  destruct (nth_call func args (Z.to_nat (k - 1)) (state w, clock w))
    as [[v | e] st']; cbn [fst snd]; [| reflexivity].
  unfold io_bind, perf_counter, io_lift, py_truediv, print, load_local, io_ret.
  cbn [world_after state clock calls stdout].
  replace (k =? 0) with false by (symmetry; apply Z.eqb_neq; lia).
  reflexivity.
Qed.

Lemma avg_nonneg (t0 t1 : Q) (k : Z) :
  1 <= k -> (t0 <= t1)%Q -> (0 <= (t1 - t0) / inject_Z k)%Q.
Proof.
  intros Hk Ht. unfold Qdiv. apply Qmult_le_0_compat.
  - unfold Qminus. now apply (proj1 (Qle_minus_iff t0 t1)).
  - apply Qinv_le_0_compat. unfold Qle. cbn. lia.
Qed.
End HarnessFacts.

Section MoreHarnessFacts.
Context {St Args R : Type}.
Implicit Types (func : callable St Args R) (args : Args) (w : world St).

(** When the invocations in a row end in a failure, the failing one
    is the last one made. *)
Lemma nth_call_failure_last func args (n : nat) :
  forall st e st',
    nth_call func args n st = (Raise e, st') ->
    nth_call func args (calls_made func args n st - 1) st = (Raise e, st').
Proof.
  induction n as [| n IH]; intros st e st' H; cbn [calls_made nth_call] in *.
  - exact H.
  - destruct (func args st) as [[v | e0] st0] eqn:Hcall.
    + pose proof (calls_made_bound func args n st0) as Hb.
      replace (S (calls_made func args n st0) - 1)%nat
        with (S (calls_made func args n st0 - 1)) by lia.
      cbn [nth_call]. rewrite Hcall. now apply IH.
    + cbn [Nat.sub nth_call]. now rewrite Hcall.
Qed.

(** Without a single iteration the division fails before anything is
    returned; a negative count gets past it and fails at [result]. *)
Lemma benchmark_zero_iterations func args (name : string) w :
  benchmark_function func args 0 name w = (Raise ZeroDivisionError, w).
Proof. reflexivity. Qed.

End MoreHarnessFacts.

(** ** The algorithms over the object store *)

Lemma sum_values_ints (l : list Z) (acc : Z) :
  sum_values acc (map VInt l) = Ret (fold_left Z.add l acc).
Proof.
  revert acc. induction l as [| z l IH]; intros acc; [reflexivity |].
  cbn [map sum_values py_add bind fold_left]. apply IH.
Qed.

Lemma fib_st_small (n : Z) (h : heap) :
  n <= 1 -> python_fibonacci_st n h = (Ret n, h).
Proof.
  intros H. rewrite python_fibonacci_st_equation_1.
  destruct (Z_le_gt_dec n 1); [reflexivity | lia].
Qed.

Lemma fib_st_step (n a b : Z) (h : heap) :
  1 < n ->
  python_fibonacci_st (n - 1) h = (Ret a, h) ->
  python_fibonacci_st (n - 2) h = (Ret b, h) ->
  python_fibonacci_st n h = (Ret (a + b), h).
Proof.
  intros H Ha Hb. rewrite python_fibonacci_st_equation_1.
  destruct (Z_le_gt_dec n 1); [lia |]. cbn. now rewrite Ha, Hb.
Qed.

Lemma fib_st_nat_pair (h : heap) (k : nat) :
  python_fibonacci_st (Z.of_nat k) h = (Ret (fst (fib_pair k)), h) /\
  python_fibonacci_st (Z.of_nat (S k)) h = (Ret (snd (fib_pair k)), h).
Proof.
  induction k as [| k [IHa IHb]].
  - split; cbn; apply fib_st_small; lia.
  - split.
    + rewrite fib_pair_S. exact IHb.
    + rewrite fib_pair_S. cbn [fst snd]. rewrite Z.add_comm.
      apply fib_st_step; [lia | |].
      * replace (Z.of_nat (S (S k)) - 1) with (Z.of_nat (S k)) by lia. exact IHb.
      * replace (Z.of_nat (S (S k)) - 2) with (Z.of_nat k) by lia. exact IHa.
Qed.

(** The recursion never touches the store. *)
Lemma python_fibonacci_st_pure (n : Z) (h : heap) :
  python_fibonacci_st n h = (python_fibonacci n, h).
Proof.
  destruct (Z_le_gt_dec n 1) as [Hle | Hgt].
  - now rewrite fib_st_small, fib_small.
  - rewrite <- (Z2Nat.id n) by lia.
    rewrite (proj1 (fib_st_nat_pair h (Z.to_nat n))).
    now rewrite (proj1 (fib_nat_pair (Z.to_nat n))).
Qed.

Lemma lookup_map_bool (s : list bool) (k : nat) :
  map VBool s !! k = option_map VBool (s !! k).
Proof.
  revert k. induction s as [| b s IH]; intros [| k]; try reflexivity. apply IH.
Qed.

Lemma insert_map_bool (s : list bool) (k : nat) (b : bool) :
  <[k := VBool b]> (map VBool s) = map VBool (<[k := b]> s).
Proof.
  revert k. induction s as [| c s IH]; intros [| k]; try reflexivity.
  cbn. f_equal. apply IH.
Qed.

Lemma py_index_map_bool (s : list bool) (i : Z) :
  py_index (map VBool s) i = py_index s i.
Proof. unfold py_index. now rewrite length_map. Qed.

Lemma list_setitem_map_bool (s s' : list bool) (i : Z) (b : bool) :
  list_setitem s i b = Ret s' ->
  list_setitem (map VBool s) i (VBool b) = Ret (map VBool s').
Proof.
  unfold list_setitem. rewrite py_index_map_bool.
  destruct (py_index s i) as [k | e]; cbn [bind]; [| discriminate].
  intros H. injection H as <-. now rewrite insert_map_bool.
Qed.

Lemma list_getitem_map_bool (s : list bool) (i : Z) (b : bool) :
  list_getitem s i = Ret b ->
  list_getitem (map VBool s) i = Ret (VBool b).
Proof.
  unfold list_getitem. rewrite py_index_map_bool.
  destruct (py_index s i) as [k | e]; cbn [bind]; [| discriminate].
  rewrite lookup_map_bool. destruct (s !! k) as [c |]; cbn; [| discriminate].
  intros H. now injection H as <-.
Qed.

(** The loops of the sieve change the sieve object and nothing else:
    they do to the object at [r] what the loops on the list value do. *)
Lemma strike_in_store (r : ref) (js : list Z) :
  forall (s s' : list bool) (h : heap),
    h !! r = Some (map VBool s) ->
    for_each js (fun j s => list_setitem s j false) s = Ret s' ->
    for_each_st js (fun j => obj_setitem r j (VBool false)) h
      = (Ret tt, <[r := map VBool s']> h).
Proof.
  induction js as [| j js IH]; intros s s' h Hr Hrun.
  - cbn in Hrun. injection Hrun as <-. cbn.
    unfold hc_ret. f_equal. symmetry. now apply list_insert_id.
  - cbn [for_each] in Hrun.
    destruct (list_setitem s j false) as [s1 | e] eqn:Hset;
      cbn [bind] in Hrun; [| discriminate Hrun].
    cbn [for_each_st]. unfold hc_bind at 1. unfold obj_setitem at 1.
    rewrite Hr, (list_setitem_map_bool s s1 j false Hset).
    rewrite (IH s1 s' (<[r := map VBool s1]> h)); [| | exact Hrun].
    + f_equal. apply list_insert_insert_eq.
    + apply list_lookup_insert_eq. now apply lookup_lt_Some in Hr.
Qed.

Lemma sieve_step_in_store (limit : Z) (r : ref) (i : Z) (s s' : list bool) (h : heap) :
  h !! r = Some (map VBool s) ->
  sieve_step limit i s = Ret s' ->
  sieve_step_st limit r i h = (Ret tt, <[r := map VBool s']> h).
Proof.
  intros Hr Hstep. unfold sieve_step in Hstep.
  destruct (list_getitem s i) as [b | e] eqn:Hget; cbn [bind] in Hstep;
    [| discriminate Hstep].
  unfold sieve_step_st, hc_bind, obj_getitem, hc_bind, deref, hc_lift.
  rewrite Hr, (list_getitem_map_bool s i b Hget). cbn [truthy].
  destruct b.
  - unfold sieve_strike in Hstep. unfold sieve_strike_st, hc_bind, hc_lift.
    destruct (py_range3 (i * i) (limit + 1) i) as [js | e]; cbn [bind] in Hstep;
      [| discriminate Hstep].
    now apply (strike_in_store r js s s' h).
  - injection Hstep as <-. unfold hc_ret. f_equal. symmetry.
    now apply list_insert_id.
Qed.

Lemma sieve_loop_in_store (limit : Z) (r : ref) (idxs : list Z) :
  forall (s s' : list bool) (h : heap),
    h !! r = Some (map VBool s) ->
    for_each idxs (sieve_step limit) s = Ret s' ->
    for_each_st idxs (sieve_step_st limit r) h
      = (Ret tt, <[r := map VBool s']> h).
Proof.
  induction idxs as [| i idxs IH]; intros s s' h Hr Hrun.
  - cbn in Hrun. injection Hrun as <-. cbn.
    unfold hc_ret. f_equal. symmetry. now apply list_insert_id.
  - cbn [for_each] in Hrun.
    destruct (sieve_step limit i s) as [s1 | e] eqn:Hstep;
      cbn [bind] in Hrun; [| discriminate Hrun].
    cbn [for_each_st]. unfold hc_bind at 1.
    rewrite (sieve_step_in_store limit r i s s1 h Hr Hstep).
    rewrite (IH s1 s' (<[r := map VBool s1]> h)); [| | exact Hrun].
    + f_equal. apply list_insert_insert_eq.
    + apply list_lookup_insert_eq. now apply lookup_lt_Some in Hr.
Qed.

Lemma sieve_collect_in_store (s : list bool) :
  sieve_collect_st (map VBool s) = map VInt (sieve_collect s).
Proof.
  unfold sieve_collect_st, sieve_collect, enumerate. do 2 f_equal.
  generalize 0. induction s as [| b s IH]; intros k; [reflexivity |].
  cbn [map enumerate_from List.filter snd truthy].
  destruct b; cbn [map fst]; [f_equal |]; apply IH.
Qed.

Lemma python_sum_st_spec (numbers : ref) (l : list Z) (h : heap) :
  h !! numbers = Some (map VInt l) ->
  python_sum_large_vector_st numbers h = (Ret (python_sum_large_vector l), h).
Proof.
  intros Hn. unfold python_sum_large_vector_st, hc_bind, deref, hc_lift.
  rewrite Hn, sum_values_ints. reflexivity.
Qed.

Lemma insert_last {A : Type} (l : list A) (x y : A) :
  <[length l := x]> (l ++ [y]) = l ++ [x].
Proof. induction l as [| a l IH]; [reflexivity |]. cbn. f_equal. exact IH. Qed.

Lemma concat_replicate_one {A : Type} (n : nat) (x : A) :
  concat (replicate n [x]) = replicate n x.
Proof. induction n as [| n IH]; [reflexivity |]. cbn. f_equal. exact IH. Qed.

Lemma map_replicate_bool (n : nat) (b : bool) :
  replicate n (VBool b) = map VBool (replicate n b).
Proof. induction n as [| n IH]; [reflexivity |]. cbn. f_equal. exact IH. Qed.

(** The pure sieve returns, and what it returns is the collection of
    the cells its loop ends with. *)
Lemma find_primes_pure_run (limit : Z) :
  2 <= limit ->
  exists s',
    for_each (py_range2 2 (int_pow_half limit + 1)) (sieve_step limit)
      (<[Z.to_nat 1 := false]> (<[Z.to_nat 0 := false]>
         (replicate (Z.to_nat (limit + 1)) true))) = Ret s' /\
    python_find_primes limit = Ret (sieve_collect s').
Proof.
  intros Hl. unfold int_pow_half.
  assert (1 <= Z.sqrt limit) as Hs by (apply Z.sqrt_le_square; lia).
  assert (Z.sqrt limit <= limit) as Hr.
  { apply Z.le_trans with (Z.sqrt (limit * limit)).
    - apply Z.sqrt_le_mono. nia.
    - rewrite Z.sqrt_square by lia. lia. }
  destruct (sieve_loop_inv limit (Z.sqrt limit) Hr (Z.to_nat (Z.sqrt limit - 1)) 2
              (<[Z.to_nat 1 := false]> (<[Z.to_nat 0 := false]>
                 (replicate (Z.to_nat (limit + 1)) true))))
    as (s' & Hrun & _); [lia | lia | now apply sieve_inv_init |].
  exists s'. split; [exact Hrun |].
  unfold python_find_primes, find_primes_upto, int_pow_half.
  replace (limit <? 2) with false by (symmetry; apply Z.ltb_ge; lia).
  cbv zeta.
  rewrite list_setitem_inside by (rewrite length_replicate; lia). cbn [bind].
  rewrite list_setitem_inside by (rewrite length_insert, length_replicate; lia).
  cbn [bind]. now rewrite Hrun.
Qed.

(** On the store the sieve leaves every object it found as it was, and
    returns a new list object holding what the pure sieve returns. *)
Lemma python_find_primes_st_spec (limit : Z) (h : heap) :
  exists ps garbage,
    python_find_primes limit = Ret ps /\
    python_find_primes_st limit h
      = (Ret (length h + length garbage)%nat, h ++ garbage ++ [map VInt ps]).
Proof.
  destruct (Z_lt_le_dec limit 2) as [Hsmall | Hbig].
  - exists [], []. unfold python_find_primes, find_primes_upto, python_find_primes_st.
    replace (limit <? 2) with true by (symmetry; apply Z.ltb_lt; lia).
    split; [reflexivity |]. unfold new_list. cbn. now rewrite Nat.add_0_r.
  - destruct (find_primes_pure_run limit Hbig) as (s' & Hrun & Hps).
    set (s0 := replicate (Z.to_nat (limit + 1)) true) in *.
    set (s1 := <[Z.to_nat 0 := false]> s0) in *.
    set (s2 := <[Z.to_nat 1 := false]> s1) in *.
    exists (sieve_collect s'), [[VBool true]; map VBool s'].
    split; [exact Hps |].
    unfold python_find_primes_st.
    replace (limit <? 2) with false by (symmetry; apply Z.ltb_ge; lia).
    unfold hc_bind at 1. unfold new_list at 1.
    unfold hc_bind at 1. unfold obj_mul, hc_bind at 1, deref.
    rewrite (list_lookup_middle h [] [VBool true] (length h) eq_refl).
    unfold new_list at 1. rewrite concat_replicate_one, map_replicate_bool.
    fold s0. rewrite length_app. cbn [length].
    set (r := (length h + 1)%nat).
    set (h1 := h ++ [[VBool true]]).
    assert (length h1 = r) as Hlen1 by (unfold h1, r; now rewrite length_app).
    assert (forall cells, (h1 ++ [cells]) !! r = Some cells) as Hlook.
    { intros cells. rewrite <- Hlen1.
      now apply (list_lookup_middle h1 [] cells). }
    assert (forall c1 c2, <[r := c1]> (h1 ++ [c2]) = h1 ++ [c1]) as Hins.
    { intros c1 c2. rewrite <- Hlen1. apply insert_last. }
    unfold hc_bind at 1. unfold obj_setitem at 1. rewrite Hlook.
    rewrite (list_setitem_map_bool s0 s1 0 false).
    2:{ apply list_setitem_inside. unfold s0. rewrite length_replicate. lia. }
    rewrite Hins.
    unfold hc_bind at 1. unfold obj_setitem at 1. rewrite Hlook.
    rewrite (list_setitem_map_bool s1 s2 1 false).
    2:{ apply list_setitem_inside. unfold s1, s0.
        rewrite length_insert, length_replicate. lia. }
    rewrite Hins.
    unfold hc_bind at 1.
    rewrite (sieve_loop_in_store limit r _ s2 s' (h1 ++ [map VBool s2]) (Hlook _) Hrun).
    rewrite Hins.
    unfold hc_bind at 1. unfold deref. rewrite Hlook.
    unfold new_list. rewrite sieve_collect_in_store.
    f_equal.
    + f_equal. rewrite length_app. cbn [length]. unfold r. lia.
    + unfold h1. rewrite <- !app_assoc. reflexivity.
Qed.

Lemma python_analyze_text_st_spec (text : str) (h : heap) :
  python_analyze_text_st text h
    = (Ret (python_analyze_text text),
       h ++ [map VStr (str_splitlines text); map VStr (str_split text)]).
Proof.
  unfold python_analyze_text_st, python_analyze_text.
  unfold hc_bind at 1. unfold new_list at 1.
  unfold hc_bind at 1. unfold obj_len at 1, hc_bind at 1, deref at 1.
  rewrite (list_lookup_middle h [] _ (length h) eq_refl). unfold hc_ret at 1.
  unfold hc_bind at 1. unfold new_list at 1.
  unfold hc_bind at 1. unfold obj_len, hc_bind, deref.
  rewrite (list_lookup_middle (h ++ [map VStr (str_splitlines text)]) [] _ _ eq_refl).
  unfold hc_ret, len. rewrite !length_map, <- app_assoc. reflexivity.
Qed.

(** * The stated properties *)

(** C1. For every limit [L >= 0], [python_find_primes L] returns the
    primes [<= L] and nothing else, in strictly ascending order; for
    [0] and [1] it returns the empty list, for [10] it returns
    [2, 3, 5, 7]. *)
Theorem find_primes_correct (L : Z) :
  0 <= L ->
  (exists ps, python_find_primes L = Ret ps /\
     StronglySorted Z.lt ps /\
     forall p, In p ps <-> (Z.prime p /\ p <= L)) /\
  python_find_primes 0 = Ret [] /\
  python_find_primes 1 = Ret [] /\
  python_find_primes 10 = Ret [2; 3; 5; 7].
Proof.
  intros HL. split; [| split; [| split]; vm_compute; reflexivity].
  destruct (Z_lt_le_dec L 2) as [Hsmall | Hbig].
  - exists []. split; [| split].
    + unfold python_find_primes, find_primes_upto.
      now replace (L <? 2) with true by (symmetry; apply Z.ltb_lt; lia).
    + constructor.
    + intros p. split; [intros [] |]. intros [[Hp _] Hle]. lia.
  - apply find_primes_upto_spec; [exact Hbig |].
    unfold int_pow_half. split; [lia |].
    apply Z.le_trans with (Z.sqrt (L * L)).
    + apply Z.sqrt_le_mono. nia.
    + rewrite Z.sqrt_square by lia. lia.
Qed.

Lemma find_primes_correct_witness :
  0 <= 30 /\
  exists ps, python_find_primes 30 = Ret ps /\
    StronglySorted Z.lt ps /\
    forall p, In p ps <-> (Z.prime p /\ p <= 30).
Proof.
  split; [lia |]. apply (find_primes_correct 30). lia.
Defined.

(** C2. [python_fibonacci] follows the recursive definition: it is [0]
    at [0], [1] at [1], the sum of the two preceding values from [2]
    on; at [10] it is [55]. *)
Theorem fibonacci_recurrence (n : Z) :
  2 <= n ->
  python_fibonacci 0 = Ret 0 /\
  python_fibonacci 1 = Ret 1 /\
  (exists a b, python_fibonacci (n - 1) = Ret a /\
               python_fibonacci (n - 2) = Ret b /\
               python_fibonacci n = Ret (a + b)) /\
  python_fibonacci 10 = Ret 55.
Proof.
  intros Hn. split; [apply fib_small; lia |]. split; [apply fib_small; lia |].
  split.
  - destruct (fib_total (n - 1)) as [a Ha], (fib_total (n - 2)) as [b Hb].
    exists a, b. split; [exact Ha |]. split; [exact Hb |].
    rewrite fib_step_raw by lia. now rewrite Ha, Hb.
  - exact (proj1 (fib_nat_pair 10)).
Qed.

Lemma fibonacci_recurrence_witness :
  2 <= 10 /\
  exists a b, python_fibonacci (10 - 1) = Ret a /\
              python_fibonacci (10 - 2) = Ret b /\
              python_fibonacci 10 = Ret (a + b).
Proof.
  split; [lia |]. apply (fibonacci_recurrence 10). lia.
Defined.

(** C10. For every [n <= 1], negative ones included,
    [python_fibonacci n] returns [n] itself: a negative input is neither
    rejected nor mapped to [0]. *)
Theorem fibonacci_small_identity (n : Z) :
  n <= 1 -> python_fibonacci n = Ret n.
Proof. apply fib_small. Qed.

Lemma fibonacci_small_identity_witness :
  -5 <= 1 /\ python_fibonacci (-5) = Ret (-5).
Proof.
  split; [lia |]. apply (fibonacci_small_identity (-5)). lia.
Defined.

(** C6, as stated: a negative [n] or [limit] makes the call fail. It
    does not: [python_fibonacci (-5)] returns [-5] and
    [python_find_primes (-3)] returns the empty list. *)
Lemma negative_inputs_not_rejected :
  python_fibonacci (-5) = Ret (-5) /\
  python_find_primes (-3) = Ret [] /\
  ~ (forall n, n < 0 -> raises (python_fibonacci n)) /\
  ~ (forall limit, limit < 0 -> raises (python_find_primes limit)).
Proof.
  assert (python_fibonacci (-5) = Ret (-5)) as Hf by (apply fib_small; lia).
  assert (python_find_primes (-3) = Ret []) as Hp by reflexivity.
  split; [exact Hf |]. split; [exact Hp |]. split.
  - intros H. destruct (H (-5) ltac:(lia)) as [e He]. congruence.
  - intros H. destruct (H (-3) ltac:(lia)) as [e He]. congruence.
Qed.

(** C6, amended. A negative input is special-cased, not rejected: for
    [n < 0], [python_fibonacci n] returns [n]; for [limit < 0],
    [python_find_primes limit] returns the empty list; neither raises. *)
Theorem negative_inputs_special_cased (n limit : Z) :
  n < 0 -> limit < 0 ->
  python_fibonacci n = Ret n /\
  python_find_primes limit = Ret [] /\
  ~ raises (python_fibonacci n) /\
  ~ raises (python_find_primes limit).
Proof.
  intros Hn Hl.
  assert (python_fibonacci n = Ret n) as Hf by (apply fib_small; lia).
  assert (python_find_primes limit = Ret []) as Hp.
  { unfold python_find_primes, find_primes_upto.
    now replace (limit <? 2) with true by (symmetry; apply Z.ltb_lt; lia). }
  split; [exact Hf |]. split; [exact Hp |].
  split; intros [e He]; congruence.
Qed.

Lemma negative_inputs_special_cased_witness :
  -5 < 0 /\ -3 < 0 /\
  python_fibonacci (-5) = Ret (-5) /\ python_find_primes (-3) = Ret [].
Proof.
  split; [lia |]. split; [lia |].
  destruct (negative_inputs_special_cased (-5) (-3)) as (Hf & Hp & _); [lia | lia |].
  split; [exact Hf | exact Hp].
Defined.

(** C5. Summation does not depend on the order: a sequence and its
    reverse have the same sum; the empty sequence sums to [0]; and
    [range(0, 1000000)] sums to [499999500000]. *)
Theorem sum_sequence_order_invariant (numbers : list Z) :
  python_sum_large_vector numbers = python_sum_large_vector (rev numbers) /\
  python_sum_large_vector [] = 0 /\
  python_sum_large_vector (py_range2 0 1000000) = 499999500000.
Proof.
  unfold python_sum_large_vector. split; [now rewrite py_sum_rev |].
  split; [reflexivity |].
  pose proof (py_sum_range 1000000 ltac:(lia)) as H. lia.
Qed.


(** C8. Each reference algorithm is deterministic: two calls with the
    same input, the second on the store the first one left, return the
    same output, which is the value the input alone determines. No call
    changes an object it found: the list handed to [sum] still holds the
    same numbers for the second call, the sieve and the lists of lines
    and words are objects of the call's own, and the recursion touches
    no object at all. The two lists of primes are two objects with the
    same elements. *)
Theorem reference_algorithms_deterministic
    (h : heap) (numbers : ref) (l : list Z) (n limit : Z) (text : str) :
  h !! numbers = Some (map VInt l) ->
  run_twice (python_sum_large_vector_st numbers) h
    = (Ret (python_sum_large_vector l), Ret (python_sum_large_vector l), h) /\
  run_twice (python_fibonacci_st n) h
    = (python_fibonacci n, python_fibonacci n, h) /\
  (exists ps a b added,
     python_find_primes limit = Ret ps /\
     run_twice (python_find_primes_st limit) h = (Ret a, Ret b, h ++ added) /\
     (h ++ added) !! a = Some (map VInt ps) /\
     (h ++ added) !! b = Some (map VInt ps) /\
     a <> b) /\
  (exists added,
     run_twice (python_analyze_text_st text) h
       = (Ret (python_analyze_text text), Ret (python_analyze_text text),
          h ++ added)).
Proof.
  intros Hn. split; [| split; [| split]].
  - unfold run_twice. now rewrite !(python_sum_st_spec numbers l h Hn).
  - unfold run_twice. now rewrite !python_fibonacci_st_pure.
  - destruct (python_find_primes_st_spec limit h) as (ps & g1 & Hps & Hrun1).
    destruct (python_find_primes_st_spec limit (h ++ g1 ++ [map VInt ps]))
      as (ps' & g2 & Hps' & Hrun2).
    rewrite Hps in Hps'. injection Hps' as <-.
    exists ps, (length h + length g1)%nat,
      (length (h ++ g1 ++ [map VInt ps]) + length g2)%nat,
      ((g1 ++ [map VInt ps]) ++ g2 ++ [map VInt ps]).
    split; [exact Hps |]. split; [| split; [| split]].
    + unfold run_twice. rewrite Hrun1, Hrun2. now rewrite <- !app_assoc.
    + replace (h ++ (g1 ++ [map VInt ps]) ++ g2 ++ [map VInt ps])
        with ((h ++ g1) ++ map VInt ps :: (g2 ++ [map VInt ps]))
        by (now rewrite <- !app_assoc).
      apply list_lookup_middle. now rewrite length_app.
    + replace (h ++ (g1 ++ [map VInt ps]) ++ g2 ++ [map VInt ps])
        with (((h ++ g1 ++ [map VInt ps]) ++ g2) ++ map VInt ps :: [])
        by (now rewrite <- !app_assoc).
      apply list_lookup_middle. now rewrite (length_app _ g2).
    + rewrite !length_app. cbn [length]. lia.
  - exists ([map VStr (str_splitlines text); map VStr (str_split text)]
            ++ [map VStr (str_splitlines text); map VStr (str_split text)]).
    unfold run_twice. rewrite !python_analyze_text_st_spec.
    now rewrite <- app_assoc.
Qed.

Lemma reference_algorithms_deterministic_witness :
  run_twice (python_sum_large_vector_st 0) [[VInt 1; VInt 2; VInt 3]]
    = (Ret 6, Ret 6, [[VInt 1; VInt 2; VInt 3]]) /\
  exists ps a b added,
    python_find_primes 10 = Ret ps /\
    run_twice (python_find_primes_st 10) [[VInt 1; VInt 2; VInt 3]]
      = (Ret a, Ret b, [[VInt 1; VInt 2; VInt 3]] ++ added) /\
    ([[VInt 1; VInt 2; VInt 3]] ++ added) !! a = Some (map VInt ps) /\
    ([[VInt 1; VInt 2; VInt 3]] ++ added) !! b = Some (map VInt ps) /\
    a <> b.
Proof.
  destruct (reference_algorithms_deterministic
              [[VInt 1; VInt 2; VInt 3]] 0%nat [1; 2; 3] 10 10 [97; 10] eq_refl)
    as (Hsum & _ & Hprimes & _).
  split; [exact Hsum | exact Hprimes].
Defined.

(** C3. With [k >= 1] iterations, a clock that does not go back and
    invocations that return, [benchmark_function] invokes the callable
    exactly [k] times, one after the other, returns the value of the
    last invocation first and, second, the average seconds per call:
    the time between the reading of the clock before the loop and the
    reading after it, divided by [k], which is not negative. With
    [k = 1], the default, the value is that of the one invocation. *)
Theorem benchmark_invokes_k_times {St Args R : Type}
    (func : callable St Args R) (args : Args) (k : Z) (name : string)
    (w : world St) (v : R) (st' : St * Q) :
  1 <= k ->
  clock_monotone func ->
  nth_call func args (Z.to_nat (k - 1)) (state w, clock w) = (Ret v, st') ->
  exists avg w',
    benchmark_function func args k name w = (Ret (v, avg), w') /\
    avg = ((clock w' - clock w) / inject_Z k)%Q /\
    clock w' = snd st' /\
    (0 <= avg)%Q /\
    calls w' = (calls w + Z.to_nat k)%nat /\
    state w' = fst st' /\
    (k = 1 ->
     func args (state w, clock w) = (Ret v, st') /\
     fst (benchmark_function_default func args w) = Ret (v, avg)).
Proof.
  intros Hk Hmono Hcalls.
  pose proof (benchmark_run func args k name w Hk) as Hrun.
  rewrite Hcalls in Hrun. cbv zeta in Hrun.
  eexists. eexists. split; [exact Hrun |].
  cbn [clock calls state].
  split; [reflexivity |]. split; [reflexivity |].
  split; [| split; [| split]].
  - apply avg_nonneg; [exact Hk |].
    pose proof (nth_call_clock func args (Z.to_nat (k - 1)) Hmono (state w, clock w))
      as Hc.
    rewrite Hcalls in Hc. exact Hc.
  - rewrite (calls_made_all _ _ _ _ _ _ Hcalls). lia.
  - reflexivity.
  - intros ->. split; [exact Hcalls |].
    unfold benchmark_function_default.
    rewrite (benchmark_run func args 1 "Function" w ltac:(lia)).
    change (Z.to_nat (1 - 1)) with O in Hcalls |- *.
    rewrite Hcalls. reflexivity.
Qed.

Lemma benchmark_invokes_k_times_witness :
  exists avg w',
    benchmark_function counting tt 5 "counting" fresh_world = (Ret (4%nat, avg), w') /\
    avg = ((5 - 0) / inject_Z 5)%Q /\ (avg == 1)%Q /\
    (0 <= avg)%Q /\ calls w' = 5%nat.
Proof.
  destruct (benchmark_invokes_k_times counting tt 5 "counting" fresh_world
              4%nat (5%nat, 5%Q))
    as (avg & w' & Hrun & Hquot & Hclock & Havg & Hcalls & _).
  - lia.
  - intros args s t. unfold counting. cbn [snd].
    rewrite <- (Qplus_0_r t) at 1. apply Qplus_le_r. discriminate.
  - reflexivity.
  - exists avg, w'. split; [exact Hrun |].
    rewrite Hclock in Hquot. cbn [snd fresh_world clock] in Hquot.
    split; [exact Hquot |]. split; [rewrite Hquot; reflexivity |].
    split; [exact Havg | exact Hcalls].
Defined.

(** C7. When an invocation raises, [benchmark_function] raises the
    same exception: the failing invocation is the last one made (no
    retry), nothing is printed, and the world is the one the callable
    left. *)
Theorem benchmark_propagates_failure {St Args R : Type}
    (func : callable St Args R) (args : Args) (k : Z) (name : string)
    (w : world St) (e : exn) (st' : St * Q) :
  1 <= k ->
  nth_call func args (Z.to_nat (k - 1)) (state w, clock w) = (Raise e, st') ->
  let made := calls_made func args (Z.to_nat (k - 1)) (state w, clock w) in
  benchmark_function func args k name w = (Raise e, world_after w st' made) /\
  (1 <= made <= Z.to_nat k)%nat /\
  nth_call func args (made - 1) (state w, clock w) = (Raise e, st') /\
  stdout (world_after w st' made) = stdout w.
Proof.
  intros Hk Hcalls made.
  split; [| split; [| split]].
  - rewrite (benchmark_run func args k name w Hk), Hcalls. reflexivity.
  - pose proof (calls_made_bound func args (Z.to_nat (k - 1)) (state w, clock w)).
    unfold made. lia.
  - now apply nth_call_failure_last.
  - reflexivity.
Qed.

Lemma benchmark_propagates_failure_witness :
  benchmark_function fails_third tt 5 "failing" fresh_world =
    (Raise (UserError "third call"),
     {| state := 3%nat; clock := 3%Q; calls := 3; stdout := [] |}).
Proof.
  destruct (benchmark_propagates_failure fails_third tt 5 "failing" fresh_world
              (UserError "third call") (3%nat, 3%Q))
    as (Hrun & _).
  - lia.
  - reflexivity.
  - exact Hrun.
Defined.

(** C9. With [iterations >= 1] the division is by a non-zero number and
    [result] is bound when the loop ends: the call returns a pair when
    the invocations return and otherwise raises only what the callable
    raised. With [iterations = 0] it returns no pair: the division
    raises [ZeroDivisionError]. *)
Theorem benchmark_iterations_guard {St Args R : Type}
    (func : callable St Args R) (args : Args) (k : Z) (name : string)
    (w : world St) :
  1 <= k ->
  (forall x : Q, py_truediv x k = Ret (x / inject_Z k)%Q) /\
  (forall l w',
     for_each_io (py_range2 0 k) (loop_body func args) None w = (Ret l, w') ->
     exists v, l = Some v) /\
  match nth_call func args (Z.to_nat (k - 1)) (state w, clock w) with
  | (Ret v, _) =>
      exists avg w', benchmark_function func args k name w = (Ret (v, avg), w')
  | (Raise e, _) =>
      exists w', benchmark_function func args k name w = (Raise e, w')
  end /\
  benchmark_function func args 0 name w = (Raise ZeroDivisionError, w).
Proof.
  intros Hk. split; [| split; [| split]].
  - intros x. unfold py_truediv.
    now replace (k =? 0) with false by (symmetry; apply Z.eqb_neq; lia).
  - intros l w'.
    replace k with (0 + Z.of_nat (S (Z.to_nat (k - 1)))) by lia.
    rewrite loop_runs_calls.
    destruct (fst (nth_call func args (Z.to_nat (k - 1)) (state w, clock w)))
      as [v | e]; intros H; inversion H. now exists v.
  - rewrite (benchmark_run func args k name w Hk).
    destruct (nth_call func args (Z.to_nat (k - 1)) (state w, clock w))
      as [[v | e] st']; eexists; try eexists; reflexivity.
  - apply benchmark_zero_iterations.
Qed.

Lemma benchmark_iterations_guard_witness :
  (exists avg w',
     benchmark_function counting tt 3 "counting" fresh_world = (Ret (2%nat, avg), w')) /\
  benchmark_function counting tt 0 "counting" fresh_world =
    (Raise ZeroDivisionError, fresh_world).
Proof.
  destruct (benchmark_iterations_guard counting tt 3 "counting" fresh_world)
    as (_ & _ & Hrun & Hzero); [lia |].
  split; [exact Hrun | exact Hzero].
Defined.

(** * Further properties of the code *)

(** ** The sieve *)

(** Two strictly ascending lists with the same elements are equal. *)
Lemma ascending_ext (l1 l2 : list Z) :
  StronglySorted Z.lt l1 -> StronglySorted Z.lt l2 ->
  (forall x, In x l1 <-> In x l2) -> l1 = l2.
Proof.
  revert l2. induction l1 as [| a l1 IH]; intros l2 H1 H2 Hext.
  - destruct l2 as [| b l2]; [reflexivity |].
    exfalso. apply (Hext b). now left.
  - destruct l2 as [| b l2]; [exfalso; apply (Hext a); now left |].
    apply StronglySorted_inv in H1. destruct H1 as [H1 Ha].
    apply StronglySorted_inv in H2. destruct H2 as [H2 Hb].
    rewrite List.Forall_forall in Ha, Hb.
    assert (a = b) as ->.
    { destruct (proj1 (Hext a) ltac:(now left)) as [Hab | Hab]; [congruence |].
      destruct (proj2 (Hext b) ltac:(now left)) as [Hba | Hba]; [congruence |].
      apply Hb in Hab. apply Ha in Hba. lia. }
    f_equal. apply IH; [exact H1 | exact H2 |].
    intros x. split; intros Hx.
    + destruct (proj1 (Hext x) ltac:(now right)) as [<- | Hin]; [| exact Hin].
      apply Ha in Hx. lia.
    + destruct (proj2 (Hext x) ltac:(now right)) as [<- | Hin]; [| exact Hin].
      apply Hb in Hx. lia.
Qed.

(** The result for any limit, negative ones included. *)
Lemma python_find_primes_spec (L : Z) :
  exists ps, python_find_primes L = Ret ps /\
    StronglySorted Z.lt ps /\
    forall p, In p ps <-> (Z.prime p /\ p <= L).
Proof.
  destruct (Z_lt_le_dec L 2) as [Hsmall | Hbig].
  - exists []. split; [| split].
    + unfold python_find_primes, find_primes_upto.
      now replace (L <? 2) with true by (symmetry; apply Z.ltb_lt; lia).
    + constructor.
    + intros p. split; [intros [] |]. intros [[Hp _] Hle]. lia.
  - apply find_primes_upto_spec; [exact Hbig |].
    unfold int_pow_half. split; [lia |].
    apply Z.le_trans with (Z.sqrt (L * L)).
    + apply Z.sqrt_le_mono. nia.
    + rewrite Z.sqrt_square by lia. lia.
Qed.

Lemma filter_ascending (f : Z -> bool) (l : list Z) :
  StronglySorted Z.lt l -> StronglySorted Z.lt (List.filter f l).
Proof.
  induction l as [| a l IH]; intros H; [constructor |].
  apply StronglySorted_inv in H. destruct H as [H Ha].
  cbn [List.filter]. destruct (f a); [| now apply IH].
  constructor; [now apply IH |].
  rewrite List.Forall_forall in Ha |- *. intros x Hx.
  apply filter_In in Hx. apply Ha, Hx.
Qed.

Lemma ascending_split (L : Z) (l : list Z) :
  StronglySorted Z.lt l ->
  l = List.filter (fun p => p <=? L) l ++ List.filter (fun p => negb (p <=? L)) l.
Proof.
  induction l as [| a l IH]; intros H; [reflexivity |].
  apply StronglySorted_inv in H. destruct H as [H Ha].
  cbn [List.filter]. destruct (Z.leb_spec a L) as [Hle | Hgt]; cbn [negb app].
  - f_equal. now apply IH.
  - rewrite List.Forall_forall in Ha.
    assert (List.filter (fun p => p <=? L) l = []) as ->.
    { rewrite (filter_ext_in _ (fun _ => false)); [apply filter_false |].
      intros x Hx. apply Ha in Hx. apply Z.leb_gt. lia. }
    cbn [app]. f_equal.
    rewrite (filter_ext_in _ (fun _ => true)); [now rewrite filter_true |].
    intros x Hx. apply Ha in Hx. apply negb_true_iff. apply Z.leb_gt. lia.
Qed.

(** X1. The bound of the outer loop does not matter as long as it reaches
    the integer square root and stays inside the sieve: rounding the
    float root up changes nothing. *)
Theorem find_primes_bound_irrelevant (r limit : Z) :
  Z.sqrt limit <= r <= limit ->
  find_primes_upto r limit = python_find_primes limit.
Proof.
  intros Hr. destruct (Z_lt_le_dec limit 2) as [Hsmall | Hbig].
  - unfold python_find_primes, find_primes_upto.
    now replace (limit <? 2) with true by (symmetry; apply Z.ltb_lt; lia).
  - destruct (find_primes_upto_spec r limit Hbig Hr) as (ps & -> & Hs & Hin).
    destruct (python_find_primes_spec limit) as (ps' & -> & Hs' & Hin').
    f_equal. apply ascending_ext; [exact Hs | exact Hs' |].
    intros x. now rewrite Hin, Hin'.
Qed.

Lemma find_primes_bound_irrelevant_witness :
  find_primes_upto 6 30 = python_find_primes 30.
Proof. apply find_primes_bound_irrelevant. cbn. lia. Defined.

(** X2. Raising the limit only appends: the primes up to [L] are a prefix
    of the primes up to any [L' >= L], and what follows is above [L]. *)
Theorem find_primes_prefix (L L' : Z) :
  L <= L' ->
  exists ps rest,
    python_find_primes L = Ret ps /\
    python_find_primes L' = Ret (ps ++ rest) /\
    Forall (fun p => L < p) rest.
Proof.
  intros HL.
  destruct (python_find_primes_spec L) as (ps & Hps & Hs & Hin).
  destruct (python_find_primes_spec L') as (ps' & Hps' & Hs' & Hin').
  exists ps, (List.filter (fun p => negb (p <=? L)) ps').
  split; [exact Hps |]. split.
  - rewrite Hps'. f_equal. rewrite (ascending_split L ps' Hs') at 1. f_equal.
    apply ascending_ext; [now apply filter_ascending | exact Hs |].
    intros x. rewrite filter_In, Hin, Hin', Z.leb_le. intuition lia.
  - apply List.Forall_forall. intros x Hx. apply filter_In in Hx.
    destruct Hx as [_ Hx]. apply negb_true_iff, Z.leb_gt in Hx. lia.
Qed.

Lemma find_primes_prefix_witness :
  exists ps rest,
    python_find_primes 10 = Ret ps /\
    python_find_primes 30 = Ret (ps ++ rest) /\
    Forall (fun p => 10 < p) rest.
Proof. apply find_primes_prefix. lia. Defined.

(** X3. The inner loop stays inside the sieve: for any [i >= 1] and any
    sieve of [limit + 1] cells it raises no [IndexError], keeps the
    length, clears the multiples of [i] from [i*i] on and leaves every
    other cell as it was. *)
Theorem sieve_strike_safe (limit i : Z) (sieve : list bool) :
  1 <= i ->
  length sieve = Z.to_nat (limit + 1) ->
  exists sieve',
    sieve_strike limit i sieve = Ret sieve' /\
    length sieve' = length sieve /\
    forall j, 0 <= j <= limit ->
      sieve' !! Z.to_nat j =
        if (i * i <=? j) && (j mod i =? 0) then Some false
        else sieve !! Z.to_nat j.
Proof.
  intros Hi Hlen. unfold sieve_strike.
  destruct (py_range3_pos (i * i) (limit + 1) i ltac:(lia)) as (js & -> & Hjs).
  cbn [bind].
  destruct (for_each_strike js sieve) as (s' & Hrun & Hlen' & Hget).
  { intros j Hj. apply Hjs in Hj. rewrite Hlen. nia. }
  exists s'. split; [exact Hrun |]. split; [exact Hlen' |].
  intros j Hj. destruct (Hget (Z.to_nat j)) as [Hyes Hno].
  rewrite Z2Nat.id in Hyes, Hno by lia.
  assert ((i | j - i * i) <-> (i | j)) as Hdiv.
  { split; intros H.
    - replace j with ((j - i * i) + i * i) by lia.
      apply Z.divide_add_r; [exact H | apply Z.divide_factor_l].
    - apply Z.divide_sub_r; [exact H | apply Z.divide_factor_l]. }
  destruct ((i * i <=? j) && (j mod i =? 0)) eqn:Hc.
  - apply andb_true_iff in Hc. destruct Hc as [Hsq Hmod].
    apply Z.leb_le in Hsq. apply Z.eqb_eq in Hmod.
    apply Hyes; [| lia]. apply Hjs. split; [lia |].
    apply Hdiv. apply Z.mod_divide; [lia | exact Hmod].
  - apply Hno. intros Hin. apply Hjs in Hin. destruct Hin as [Hr Hd].
    apply Hdiv in Hd. apply Z.mod_divide in Hd; [| lia].
    apply andb_false_iff in Hc. destruct Hc as [Hc | Hc].
    + apply Z.leb_gt in Hc. lia.
    + apply Z.eqb_neq in Hc. lia.
Qed.

Lemma sieve_strike_safe_witness :
  exists sieve',
    sieve_strike 10 2 (replicate 11 true) = Ret sieve' /\
    length sieve' = 11%nat.
Proof.
  destruct (sieve_strike_safe 10 2 (replicate 11 true)) as (s' & Hrun & Hlen & _).
  - lia.
  - reflexivity.
  - exists s'. split; [exact Hrun | exact Hlen].
Defined.

(** ** The naive recursion *)

Lemma fib_pair_bounds (k : nat) :
  0 <= fst (fib_pair k) <= snd (fib_pair k) /\ 1 <= snd (fib_pair k).
Proof.
  induction k as [| k IH]; [cbn; lia |].
  rewrite fib_pair_S. cbn [fst snd]. lia.
Qed.

Lemma fib_pair_mono (k d : nat) : fst (fib_pair k) <= fst (fib_pair (d + k)).
Proof.
  induction d as [| d IH]; [cbn [Nat.add]; lia |].
  cbn [Nat.add]. rewrite fib_pair_S. cbn [fst].
  pose proof (fib_pair_bounds (d + k)). lia.
Qed.

Lemma fib_counted_small (n : Z) :
  n <= 1 -> python_fibonacci_counted n = (Ret n, 1).
Proof.
  intros H. rewrite python_fibonacci_counted_equation_1.
  destruct (Z_le_gt_dec n 1); [reflexivity | lia].
Qed.

Lemma fib_counted_step (n : Z) (a b ca cb : Z) :
  1 < n ->
  python_fibonacci_counted (n - 1) = (Ret a, ca) ->
  python_fibonacci_counted (n - 2) = (Ret b, cb) ->
  python_fibonacci_counted n = (Ret (a + b), 1 + ca + cb).
Proof.
  intros H Ha Hb. rewrite python_fibonacci_counted_equation_1.
  destruct (Z_le_gt_dec n 1); [lia |]. cbn. now rewrite Ha, Hb.
Qed.

Lemma fib_counted_nat_pair (k : nat) :
  python_fibonacci_counted (Z.of_nat k)
    = (Ret (fst (fib_pair k)), 2 * snd (fib_pair k) - 1) /\
  python_fibonacci_counted (Z.of_nat (S k))
    = (Ret (snd (fib_pair k)), 2 * (fst (fib_pair k) + snd (fib_pair k)) - 1).
Proof.
  induction k as [| k [IHa IHb]].
  - split; cbn; apply fib_counted_small; lia.
  - split.
    + rewrite fib_pair_S. cbn [fst snd]. exact IHb.
    + rewrite fib_pair_S. cbn [fst snd].
      rewrite (fib_counted_step (Z.of_nat (S (S k)))
                 (snd (fib_pair k)) (fst (fib_pair k))
                 (2 * (fst (fib_pair k) + snd (fib_pair k)) - 1)
                 (2 * snd (fib_pair k) - 1)).
      * f_equal; [f_equal; lia | lia].
      * lia.
      * replace (Z.of_nat (S (S k)) - 1) with (Z.of_nat (S k)) by lia. exact IHb.
      * replace (Z.of_nat (S (S k)) - 2) with (Z.of_nat k) by lia. exact IHa.
Qed.

Lemma fibonacci_linear_iteration_aux (n : Z) :
  0 <= n -> python_fibonacci n = Ret (fst (fib_pair (Z.to_nat n))).
Proof.
  intros Hn. rewrite <- (Z2Nat.id n) at 1 by exact Hn. apply fib_nat_pair.
Qed.

(** X4. On non-negative inputs the naive recursion computes what the
    linear iteration [a, b = b, a + b] from [(0, 1)] computes. *)
Theorem fibonacci_linear_iteration (n : Z) :
  0 <= n -> python_fibonacci n = Ret (fst (fib_pair (Z.to_nat n))).
Proof. apply fibonacci_linear_iteration_aux. Qed.

Lemma fibonacci_linear_iteration_witness :
  python_fibonacci 35 = Ret 9227465.
Proof. apply (fibonacci_linear_iteration 35). lia. Defined.

(** X5. [python_fibonacci] is monotone on all integers, and non-negative
    from [0] on. *)
Theorem fibonacci_monotone (n m : Z) :
  n <= m ->
  exists a b,
    python_fibonacci n = Ret a /\ python_fibonacci m = Ret b /\
    a <= b /\ (0 <= n -> 0 <= a).
Proof.
  intros Hnm. destruct (Z_lt_le_dec n 0) as [Hneg | Hpos].
  - exists n. rewrite (fib_small n) by lia.
    destruct (Z_lt_le_dec m 0) as [Hm | Hm].
    + exists m. rewrite (fib_small m) by lia. repeat split; lia.
    + exists (fst (fib_pair (Z.to_nat m))).
      rewrite <- (Z2Nat.id m) at 1 by exact Hm.
      split; [reflexivity |]. split; [apply fib_nat_pair |].
      pose proof (fib_pair_bounds (Z.to_nat m)). split; lia.
  - exists (fst (fib_pair (Z.to_nat n))), (fst (fib_pair (Z.to_nat m))).
    split; [now apply fibonacci_linear_iteration_aux |].
    split; [apply fibonacci_linear_iteration_aux; lia |].
    split.
    + replace (Z.to_nat m) with ((Z.to_nat m - Z.to_nat n) + Z.to_nat n)%nat by lia.
      apply fib_pair_mono.
    + intros _. apply fib_pair_bounds.
Qed.

Lemma fibonacci_monotone_witness :
  exists a b,
    python_fibonacci (-3) = Ret a /\ python_fibonacci 7 = Ret b /\ a <= b.
Proof.
  destruct (fibonacci_monotone (-3) 7) as (a & b & Ha & Hb & Hab & _); [lia |].
  exists a, b. split; [exact Ha |]. split; [exact Hb | exact Hab].
Defined.

(** X6. The work of the naive recursion: a call with [n >= 0] makes
    [2 * fibonacci(n + 1) - 1] activations of the function, itself
    included, so the work grows like the result; and the counted
    function returns what [python_fibonacci] returns. *)
Theorem fibonacci_call_count (n : Z) :
  0 <= n ->
  exists v f,
    python_fibonacci n = Ret v /\
    python_fibonacci (n + 1) = Ret f /\
    python_fibonacci_counted n = (Ret v, 2 * f - 1).
Proof.
  intros Hn.
  exists (fst (fib_pair (Z.to_nat n))), (snd (fib_pair (Z.to_nat n))).
  split; [now apply fibonacci_linear_iteration_aux |]. split.
  - replace (n + 1) with (Z.of_nat (S (Z.to_nat n))) by lia. apply fib_nat_pair.
  - rewrite <- (Z2Nat.id n) at 1 by exact Hn. apply fib_counted_nat_pair.
Qed.

Lemma fibonacci_call_count_witness :
  exists v f,
    python_fibonacci 35 = Ret v /\
    python_fibonacci (35 + 1) = Ret f /\
    python_fibonacci_counted 35 = (Ret v, 2 * f - 1).
Proof. apply (fibonacci_call_count 35). lia. Defined.

(** ** Summation *)

(** X8. The sum does not depend on the order of the elements at all: any
    rearrangement of the sequence has the same sum. *)
Theorem sum_permutation_invariant (xs ys : list Z) :
  Permutation xs ys ->
  python_sum_large_vector xs = python_sum_large_vector ys.
Proof.
  unfold python_sum_large_vector.
  induction 1 as [| x l l' _ IH | x y l | l l' l'' _ IH1 _ IH2].
  - reflexivity.
  - rewrite !py_sum_cons. lia.
  - rewrite !py_sum_cons. lia.
  - congruence.
Qed.

Lemma sum_permutation_invariant_witness :
  python_sum_large_vector [3; 1; 2] = python_sum_large_vector [1; 2; 3].
Proof.
  apply sum_permutation_invariant.
  apply (Permutation_cons_app [1; 2] [] 3). apply Permutation_refl.
Defined.

(** X9. The sum of a concatenation is the sum of the sums, and a sequence
    of one element sums to that element. *)
Theorem sum_concatenation (xs ys : list Z) (x : Z) :
  python_sum_large_vector (xs ++ ys)
    = python_sum_large_vector xs + python_sum_large_vector ys /\
  python_sum_large_vector [x] = x.
Proof.
  unfold python_sum_large_vector. split; [apply py_sum_app |].
  unfold py_sum. cbn. lia.
Qed.

(** X10. Gauss: [sum(range(0, n))] is [n * (n - 1) / 2] for every [n >= 0],
    and [0] for an empty range. *)
Theorem sum_range_closed_form (n : Z) :
  python_sum_large_vector (py_range2 0 n) = Z.max n 0 * (Z.max n 0 - 1) / 2.
Proof.
  unfold python_sum_large_vector.
  destruct (Z_lt_le_dec n 0) as [Hneg | Hpos].
  - rewrite py_range2_nil by lia. replace (Z.max n 0) with 0 by lia. reflexivity.
  - replace (Z.max n 0) with n by lia.
    pose proof (py_sum_range n Hpos) as H.
    rewrite <- H. rewrite Z.mul_comm. now rewrite Z.div_mul.
Qed.

(** ** Text analysis *)

Lemma line_boundaries_nonneg (f : bool) (s : str) : 0 <= line_boundaries f s.
Proof.
  revert f. induction s as [| c s IH]; intros f; cbn [line_boundaries]; [lia |].
  specialize (IH (c =? CR)).
  destruct (is_linebreak c && negb (f && (c =? LF))); lia.
Qed.

Lemma token_starts_nonneg (b : bool) (s : str) : 0 <= token_starts b s.
Proof.
  revert b. induction s as [| c s IH]; intros b; cbn [token_starts]; [lia |].
  specialize (IH (is_space c)). destruct (negb (is_space c) && b); lia.
Qed.

Lemma open_fragment_cons (c : Z) (s : str) :
  open_fragment (c :: s) =
    match s with
    | [] => if is_linebreak c then 0 else 1
    | _ :: _ => open_fragment s
    end.
Proof. destruct s; reflexivity. Qed.

Lemma open_fragment_range (s : str) : 0 <= open_fragment s <= 1.
Proof.
  unfold open_fragment. destruct (last s) as [c |]; [| lia].
  destruct (is_linebreak c); lia.
Qed.

Lemma line_segments_le_len (f : bool) (s : str) :
  line_boundaries f s + open_fragment s <= len s.
Proof.
  unfold len. revert f. induction s as [| c s IH]; intros f; [cbn; lia |].
  cbn [line_boundaries length]. rewrite open_fragment_cons, Nat2Z.inj_succ.
  destruct s as [| c' s'].
  - cbn [line_boundaries length].
    destruct (is_linebreak c); cbn [andb]; [| lia].
    destruct (negb (f && (c =? LF))); lia.
  - specialize (IH (c =? CR)).
    destruct (is_linebreak c && negb (f && (c =? LF))); lia.
Qed.

Lemma token_starts_half (b : bool) (s : str) :
  2 * token_starts b s <= len s + Z.b2z b.
Proof.
  unfold len. revert b. induction s as [| c s IH]; intros b.
  - cbn. destruct b; cbn; lia.
  - cbn [token_starts length]. rewrite Nat2Z.inj_succ.
    specialize (IH (is_space c)).
    destruct (is_space c), b; cbn [negb andb Z.b2z] in *; lia.
Qed.

(** X11. The counts are bounded by the length: there are no more lines than
    characters, and [n] words need at least [2n - 1] characters. *)
Theorem analyze_text_bounds (text : str) :
  let '(lines, words, chars) := python_analyze_text text in
  0 <= lines <= chars /\ 0 <= words /\ 2 * words <= chars + 1.
Proof.
  rewrite analyze_text_counts. unfold line_segments, word_tokens.
  pose proof (line_boundaries_nonneg false text).
  pose proof (open_fragment_range text).
  pose proof (line_segments_le_len false text).
  pose proof (token_starts_nonneg true text).
  pose proof (token_starts_half true text). cbn [Z.b2z] in *. lia.
Qed.

Lemma splitlines_from_some (s cur : str) :
  cur <> [] -> (0 < length (splitlines_from cur s))%nat.
Proof.
  revert cur. induction s as [| c s IH]; intros cur Hcur.
  - destruct cur; [congruence | cbn; lia].
  - cbn [splitlines_from]. destruct (is_linebreak c).
    + destruct s as [| c' s']; [cbn; lia |].
      destruct ((c =? CR) && (c' =? LF)); cbn [length]; lia.
    + apply IH. discriminate.
Qed.

Lemma token_starts_zero (s : str) :
  token_starts true s = 0 <-> forallb is_space s = true.
Proof.
  induction s as [| c s IH]; [cbn; tauto |].
  cbn [token_starts forallb]. destruct (is_space c); cbn [negb andb].
  - rewrite <- IH. lia.
  - pose proof (token_starts_nonneg false s). split; [lia | discriminate].
Qed.

(** X12. No lines only for the empty text; no words exactly when every
    character is whitespace. *)
Theorem analyze_text_zero_counts (text : str) :
  let '(lines, words, chars) := python_analyze_text text in
  (lines = 0 <-> text = []) /\
  (words = 0 <-> forallb is_space text = true) /\
  (chars = 0 <-> text = []).
Proof.
  unfold python_analyze_text. cbv zeta. split; [| split].
  - unfold str_splitlines, len. split.
    + intros H. destruct text as [| c s]; [reflexivity | exfalso].
      cbn [splitlines_from] in H. destruct (is_linebreak c).
      * destruct s as [| c' s']; [cbn in H; lia |].
        destruct ((c =? CR) && (c' =? LF)); cbn [length] in H; lia.
      * pose proof (splitlines_from_some s [c] ltac:(discriminate)). lia.
    + intros ->. reflexivity.
  - unfold str_split. rewrite split_from_count. apply token_starts_zero.
  - unfold len. destruct text as [| c s]; cbn [length]; split; intros H;
      try reflexivity; try discriminate H; lia.
Qed.

Lemma token_starts_app (b : bool) (a c : str) :
  token_starts b (a ++ c) =
    token_starts b a +
    token_starts (match last a with Some x => is_space x | None => b end) c.
Proof.
  revert b. induction a as [| x a IH]; intros b; [cbn; lia |].
  cbn [app token_starts]. rewrite IH.
  destruct a as [| y a']; [cbn; lia |].
  assert (last (x :: y :: a') = last (y :: a')) as -> by reflexivity.
  destruct (last (y :: a')) eqn:E; [lia |].
  apply last_None in E. discriminate E.
Qed.

Lemma token_starts_flag (s : str) :
  token_starts false s =
    token_starts true s - Z.b2z (starts_in (fun c => negb (is_space c)) s).
Proof.
  destruct s as [| c s]; [reflexivity |].
  cbn [token_starts starts_in head]. destruct (is_space c); cbn; lia.
Qed.

Lemma line_boundaries_app (f : bool) (a b : str) :
  line_boundaries f (a ++ b) =
    line_boundaries f a +
    line_boundaries (match last a with Some x => x =? CR | None => f end) b.
Proof.
  revert f. induction a as [| x a IH]; intros f; [cbn; lia |].
  cbn [app line_boundaries]. rewrite IH.
  destruct a as [| y a']; [cbn; lia |].
  assert (last (x :: y :: a') = last (y :: a')) as -> by reflexivity.
  destruct (last (y :: a')) eqn:E; [lia |].
  apply last_None in E. discriminate E.
Qed.

Lemma line_boundaries_flag (s : str) :
  line_boundaries true s =
    line_boundaries false s - Z.b2z (starts_in (fun c => c =? LF) s).
Proof.
  destruct s as [| c s]; [reflexivity |].
  cbn [line_boundaries starts_in head andb].
  destruct (Z.eqb_spec c LF) as [-> | Hne]; cbn; [lia |].
  destruct (is_linebreak c); cbn; lia.
Qed.

Lemma open_fragment_ends (s : str) :
  open_fragment s = Z.b2z (ends_in (fun c => negb (is_linebreak c)) s).
Proof.
  unfold open_fragment, ends_in. destruct (last s) as [c |]; [| reflexivity].
  destruct (is_linebreak c); reflexivity.
Qed.

Lemma open_fragment_app (a b : str) :
  open_fragment (a ++ b) =
    if is_nonempty b then open_fragment b else open_fragment a.
Proof.
  induction a as [| x a IH].
  - destruct b; reflexivity.
  - cbn [app]. rewrite open_fragment_cons, (open_fragment_cons x a).
    destruct a as [| y a'].
    + cbn [app]. destruct b as [| z b']; [reflexivity |].
      cbn [is_nonempty]. reflexivity.
    + cbn [app] in *. exact IH.
Qed.

Lemma analyze_text_app (a b : str) :
  python_analyze_text (a ++ b) =
    (line_segments a + line_segments b
       - Z.b2z (ends_in (fun c => negb (is_linebreak c)) a && is_nonempty b)
       - Z.b2z (ends_in (fun c => c =? CR) a && starts_in (fun c => c =? LF) b),
     word_tokens a + word_tokens b
       - Z.b2z (ends_in (fun c => negb (is_space c)) a
                && starts_in (fun c => negb (is_space c)) b),
     len a + len b).
Proof.
  rewrite !analyze_text_counts. unfold line_segments, word_tokens.
  f_equal; [f_equal |].
  - rewrite line_boundaries_app, open_fragment_app, !open_fragment_ends.
    unfold ends_in. destruct (last a) as [x |].
    + destruct (Z.eqb_spec x CR) as [-> | Hne].
      * rewrite line_boundaries_flag. cbn [is_linebreak negb andb Z.b2z].
        destruct (is_nonempty b) eqn:Hb.
        -- destruct (starts_in (fun c => c =? LF) b); cbn; lia.
        -- destruct b; [cbn; lia | discriminate Hb].
      * cbn [andb Z.b2z].
        destruct (is_nonempty b) eqn:Hb.
        -- destruct (is_linebreak x); cbn; lia.
        -- destruct b; [| discriminate Hb]. cbn.
           destruct (is_linebreak x); cbn; lia.
    + cbn [andb Z.b2z]. destruct (is_nonempty b) eqn:Hb; [lia |].
      destruct b; [cbn; lia | discriminate Hb].
  - rewrite token_starts_app. unfold ends_in. destruct (last a) as [x |].
    + destruct (is_space x); cbn [negb andb Z.b2z]; [lia |].
      rewrite token_starts_flag. lia.
    + cbn [andb Z.b2z]. lia.
  - unfold len. rewrite length_app. lia.
Qed.

(** X13. How the counts of a concatenation come from the counts of its
    parts: characters add up; words add up, less one when a word runs
    across the seam; lines add up, less one when the first part ends
    inside a line that the second part goes on with, or when the seam
    falls between a CR and an LF. *)
Theorem analyze_text_concat (a b : str) :
  let '(la, wa, ca) := python_analyze_text a in
  let '(lb, wb, cb) := python_analyze_text b in
  python_analyze_text (a ++ b) =
    (la + lb
       - Z.b2z (ends_in (fun c => negb (is_linebreak c)) a && is_nonempty b)
       - Z.b2z (ends_in (fun c => c =? CR) a && starts_in (fun c => c =? LF) b),
     wa + wb
       - Z.b2z (ends_in (fun c => negb (is_space c)) a
                && starts_in (fun c => negb (is_space c)) b),
     ca + cb).
Proof.
  rewrite (analyze_text_counts a), (analyze_text_counts b).
  apply analyze_text_app.
Qed.

Lemma py_str_mul_succ (t : str) (n : nat) :
  py_str_mul t (Z.of_nat (S n)) = t ++ py_str_mul t (Z.of_nat n).
Proof.
  unfold py_str_mul. rewrite !Nat2Z.id. reflexivity.
Qed.

Lemma py_str_mul_nil (k : Z) : py_str_mul [] k = [].
Proof.
  unfold py_str_mul. induction (Z.to_nat k) as [| n IH]; [reflexivity | exact IH].
Qed.

Lemma py_str_mul_nonempty (t : str) (n : nat) :
  is_nonempty (py_str_mul t (Z.of_nat (S n))) = is_nonempty t.
Proof.
  destruct t as [| c t']; [now rewrite py_str_mul_nil |].
  rewrite py_str_mul_succ. reflexivity.
Qed.

Lemma py_str_mul_starts (P : Z -> bool) (t : str) (n : nat) :
  starts_in P (py_str_mul t (Z.of_nat (S n))) = starts_in P t.
Proof.
  induction n as [| n IH].
  - rewrite py_str_mul_succ. unfold py_str_mul. cbn. now rewrite app_nil_r.
  - rewrite py_str_mul_succ. destruct t as [| c t']; [| reflexivity].
    cbn [app]. exact IH.
Qed.

Lemma analyze_text_mul_nat (t : str) (n : nat) :
  python_analyze_text (py_str_mul t (Z.of_nat (S n))) =
    (Z.of_nat (S n) * line_segments t
       - Z.of_nat n
         * (Z.b2z (ends_in (fun c => negb (is_linebreak c)) t)
            + Z.b2z (ends_in (fun c => c =? CR) t && starts_in (fun c => c =? LF) t)),
     Z.of_nat (S n) * word_tokens t
       - Z.of_nat n
         * Z.b2z (ends_in (fun c => negb (is_space c)) t
                  && starts_in (fun c => negb (is_space c)) t),
     Z.of_nat (S n) * len t).
Proof.
  induction n as [| n IH].
  - rewrite py_str_mul_succ. unfold py_str_mul at 1. cbn [Z.to_nat Z.of_nat replicate concat].
    rewrite app_nil_r, analyze_text_counts. f_equal; [f_equal |]; lia.
  - rewrite py_str_mul_succ, analyze_text_app.
    rewrite py_str_mul_nonempty, !py_str_mul_starts.
    rewrite analyze_text_counts in IH. injection IH as Hl Hw Hc.
    rewrite Hl, Hw, Hc.
    assert (ends_in (fun c => negb (is_linebreak c)) t && is_nonempty t
            = ends_in (fun c => negb (is_linebreak c)) t) as ->.
    { destruct t; [reflexivity | now rewrite andb_true_r]. }
    f_equal; [f_equal |]; lia.
Qed.

(** X14. The counts of a text repeated [k >= 1] times, as in
    [sample_text * 1000]: characters and, seams apart, lines and words
    are multiplied by [k]; each of the [k - 1] seams joins an open last
    line, a CR LF pair or a word cut in two. *)
Theorem analyze_text_repeated (t : str) (k : Z) :
  1 <= k ->
  let '(lines, words, chars) := python_analyze_text t in
  python_analyze_text (py_str_mul t k) =
    (k * lines
       - (k - 1)
         * (Z.b2z (ends_in (fun c => negb (is_linebreak c)) t)
            + Z.b2z (ends_in (fun c => c =? CR) t && starts_in (fun c => c =? LF) t)),
     k * words
       - (k - 1)
         * Z.b2z (ends_in (fun c => negb (is_space c)) t
                  && starts_in (fun c => negb (is_space c)) t),
     k * chars).
Proof.
  intros Hk. rewrite (analyze_text_counts t).
  pose proof (analyze_text_mul_nat t (Z.to_nat (k - 1))) as H.
  rewrite Nat2Z.inj_succ, Z2Nat.id in H by lia.
  replace (Z.succ (k - 1)) with k in H by lia. exact H.
Qed.

Lemma analyze_text_repeated_witness :
  python_analyze_text (py_str_mul [10; 97; 32; 98; 10; 32] 1000) = (2001, 2000, 6000).
Proof.
  exact (analyze_text_repeated [10; 97; 32; 98; 10; 32] 1000 ltac:(lia)).
Defined.

(** ** The harness *)

Section HarnessMore.
Context {St Args R : Type}.
Implicit Types (func : callable St Args R) (args : Args) (w : world St).

(** What a returning run of the harness amounts to. *)
Lemma benchmark_returns_inv func args (k : Z) (name : string) w v avg w' :
  1 <= k ->
  benchmark_function func args k name w = (Ret (v, avg), w') ->
  exists st',
    nth_call func args (Z.to_nat (k - 1)) (state w, clock w) = (Ret v, st') /\
    avg = ((snd st' - clock w) / inject_Z k)%Q /\
    w' = {| state := fst st'; clock := snd st';
            calls := calls w + Z.to_nat k;
            stdout := stdout w ++ [Report name avg k] |}.
Proof.
  intros Hk Hrun. rewrite (benchmark_run func args k name w Hk) in Hrun.
  destruct (nth_call func args (Z.to_nat (k - 1)) (state w, clock w))
    as [[v0 | e] st'] eqn:Hcalls; [| discriminate Hrun].
  cbv zeta in Hrun. injection Hrun as <- <- <-.
  exists st'. split; [reflexivity |]. split; [reflexivity |].
  rewrite (calls_made_all _ _ _ _ _ _ Hcalls). do 2 f_equal. lia.
Qed.

(** Invocations in a row can be cut in two. *)
Lemma nth_call_add func args (n1 n2 : nat) :
  forall st,
    nth_call func args (S n1 + n2) st =
      match nth_call func args n1 st with
      | (Ret _, st1) => nth_call func args n2 st1
      | (Raise e, st1) => (Raise e, st1)
      end.
Proof.
  induction n1 as [| n1 IH]; intros st.
  - reflexivity.
  - change (S (S n1) + n2)%nat with (S (S n1 + n2)).
    cbn [nth_call]. destruct (func args st) as [[v | e] st0]; [| reflexivity].
    apply IH.
Qed.
End HarnessMore.



(** X18. A run that returns prints exactly one report line, after the last
    invocation, with the name, the average it returns and the iteration
    count; the average is the clock difference over the whole loop
    divided by the count. *)
Theorem benchmark_prints_report {St Args R : Type}
    (func : callable St Args R) (args : Args) (k : Z) (name : string)
    (w w' : world St) (v : R) (avg : Q) :
  1 <= k ->
  benchmark_function func args k name w = (Ret (v, avg), w') ->
  stdout w' = stdout w ++ [Report name avg k] /\
  avg = ((clock w' - clock w) / inject_Z k)%Q /\
  calls w' = (calls w + Z.to_nat k)%nat.
Proof.
  intros Hk Hrun.
  destruct (benchmark_returns_inv func args k name w v avg w' Hk Hrun)
    as (st' & _ & Havg & ->).
  cbn [stdout clock calls]. repeat split. exact Havg.
Qed.

Lemma benchmark_prints_report_witness :
  exists avg w',
    benchmark_function counting tt 4 "counting" fresh_world = (Ret (3%nat, avg), w') /\
    stdout w' = [Report "counting" avg 4].
Proof.
  eexists. eexists. split; [reflexivity |].
  refine (proj1 (benchmark_prints_report counting tt 4 "counting" fresh_world
                   _ 3%nat _ ltac:(lia) eq_refl)).
Defined.


Lemma nth_call_time_independent {St Args R : Type}
    (func : callable St Args R) (args : Args) (n : nat) :
  time_independent func ->
  forall s t t',
    fst (nth_call func args n (s, t)) = fst (nth_call func args n (s, t')) /\
    fst (snd (nth_call func args n (s, t)))
      = fst (snd (nth_call func args n (s, t'))).
Proof.
  intros Hind. induction n as [| n IH]; intros s t t'; cbn [nth_call].
  - apply Hind.
  - destruct (Hind args s t t') as [Hout Hst].
    destruct (func args (s, t)) as [[v | e] [s1 t1]],
             (func args (s, t')) as [[v' | e'] [s1' t1']];
      cbn [fst snd] in Hout, Hst; try discriminate Hout; subst s1'.
    + apply IH.
    + cbn [fst snd]. split; [exact Hout | reflexivity].
Qed.

(** X20. The harness keeps nothing between iterations but what the
    callable keeps: for a callable that does not look at the clock, a
    run of [k1] iterations followed by a run of [k2] iterations from the
    state the first one left (whenever it starts, whatever was printed
    in between) returns the value and leaves the state that one run of
    [k1 + k2] iterations returns and leaves, after [k1 + k2]
    invocations. *)
Theorem benchmark_runs_compose {St Args R : Type}
    (func : callable St Args R) (args : Args) (k1 k2 : Z) (name1 name2 name : string)
    (w w1 w1' w2 : world St) (v1 v2 : R) (a1 a2 : Q) :
  1 <= k1 -> 1 <= k2 ->
  time_independent func ->
  benchmark_function func args k1 name1 w = (Ret (v1, a1), w1) ->
  state w1' = state w1 ->
  benchmark_function func args k2 name2 w1' = (Ret (v2, a2), w2) ->
  exists a w',
    benchmark_function func args (k1 + k2) name w = (Ret (v2, a), w') /\
    state w' = state w2 /\
    calls w' = (calls w + Z.to_nat k1 + Z.to_nat k2)%nat.
Proof.
  intros Hk1 Hk2 Hind Hrun1 Hstate Hrun2.
  destruct (benchmark_returns_inv func args k1 name1 w v1 a1 w1 Hk1 Hrun1)
    as (st1 & Hc1 & _ & ->).
  destruct (benchmark_returns_inv func args k2 name2 w1' v2 a2 w2 Hk2 Hrun2)
    as (st2 & Hc2 & _ & ->).
  cbn [state] in *. destruct st1 as [s1 t1]. cbn [fst] in Hstate.
  pose proof (benchmark_run func args (k1 + k2) name w ltac:(lia)) as Hrun.
  replace (Z.to_nat (k1 + k2 - 1))
    with (S (Z.to_nat (k1 - 1)) + Z.to_nat (k2 - 1))%nat in Hrun by lia.
  rewrite (nth_call_add func args (Z.to_nat (k1 - 1)) (Z.to_nat (k2 - 1))) in Hrun.
  rewrite Hc1 in Hrun.
  destruct (nth_call_time_independent func args (Z.to_nat (k2 - 1)) Hind
              s1 t1 (clock w1')) as [Hout Hst].
  rewrite Hstate in Hc2. rewrite Hc2 in Hout, Hst. cbn [fst snd] in Hout, Hst.
  destruct (nth_call func args (Z.to_nat (k2 - 1)) (s1, t1))
    as [[v | e] st] eqn:Hc; cbn [fst] in Hout; [| discriminate Hout].
  injection Hout as ->. cbv zeta in Hrun.
  eexists. eexists. split; [exact Hrun |]. cbn [state calls snd] in *.
  split; [exact Hst |].
  assert (nth_call func args (S (Z.to_nat (k1 - 1)) + Z.to_nat (k2 - 1))
            (state w, clock w) = (Ret v2, st)) as Hall.
  { rewrite nth_call_add, Hc1. exact Hc. }
  rewrite (calls_made_all _ _ _ _ _ _ Hall). lia.
Qed.

Lemma benchmark_runs_compose_witness :
  exists a w',
    benchmark_function counting tt (2 + 3) "both" fresh_world
      = (Ret (4%nat, a), w') /\
    state w' = 5%nat /\ calls w' = 5%nat.
Proof.
  exact (benchmark_runs_compose counting tt 2 3 "first" "second" "both"
           fresh_world
           (snd (benchmark_function counting tt 2 "first" fresh_world))
           {| state := 2%nat; clock := 7; calls := 0; stdout := [] |}
           (snd (benchmark_function counting tt 3 "second"
                   {| state := 2%nat; clock := 7; calls := 0; stdout := [] |}))
           1%nat 4%nat
           ((2 - 0) / inject_Z 2)%Q ((10 - 7) / inject_Z 3)%Q
           ltac:(lia) ltac:(lia)
           (fun _ _ _ _ => conj eq_refl eq_refl)
           eq_refl eq_refl eq_refl).
Defined.

Lemma nth_call_pure {St A B : Type} (f : A -> outcome B) (cost : Q)
    (a : A) (v : B) (n : nat) :
  f a = Ret v ->
  forall (s : St) (t : Q),
    nth_call (pure_callable f cost) a n (s, t)
      = (Ret v, (s, Nat.iter (S n) (fun x => (x + cost)%Q) t)).
Proof.
  intros Hf. induction n as [| n IH]; intros s t.
  - cbn. now rewrite Hf.
  - cbn [nth_call pure_callable]. rewrite Hf.
    rewrite (IH s (t + cost)%Q). now rewrite (Nat.iter_succ_r (S n)).
Qed.

Lemma iter_cost (cost t : Q) (n : nat) :
  (Nat.iter n (fun x => x + cost) t == t + inject_Z (Z.of_nat n) * cost)%Q.
Proof.
  induction n as [| n IH].
  - cbn. ring.
  - rewrite Nat.iter_succ, IH, Nat2Z.inj_succ. unfold Z.succ.
    rewrite inject_Z_plus. ring.
Qed.

(** X21. A reference algorithm under the harness, as [main] runs them:
    when [f(a)] returns [v], the harness returns [v] whatever the
    iteration count [k >= 1], after exactly [k] invocations, and leaves
    the state alone; when the calls take no negative time the average is
    not negative. *)
Theorem benchmark_pure_callable {St A B : Type}
    (f : A -> outcome B) (cost : Q) (a : A) (v : B) (k : Z) (name : string)
    (w : world St) :
  1 <= k ->
  (0 <= cost)%Q ->
  f a = Ret v ->
  exists avg w',
    benchmark_function (pure_callable f cost) a k name w = (Ret (v, avg), w') /\
    (0 <= avg)%Q /\
    state w' = state w /\
    calls w' = (calls w + Z.to_nat k)%nat.
Proof.
  intros Hk Hcost Hf.
  pose proof (benchmark_run (pure_callable f cost) a k name w Hk) as Hrun.
  pose proof (nth_call_pure f cost a v (Z.to_nat (k - 1)) Hf (state w) (clock w))
    as Hc.
  rewrite Hc in Hrun. cbv zeta in Hrun. cbn [fst snd] in Hrun.
  eexists. eexists. split; [exact Hrun |].
  cbn [state calls]. split; [| split; [reflexivity |]].
  - apply avg_nonneg; [exact Hk |].
    rewrite iter_cost. rewrite <- (Qplus_0_r (clock w)) at 1.
    apply Qplus_le_r. apply Qmult_le_0_compat; [| exact Hcost].
    unfold Qle. cbn. lia.
  - rewrite (calls_made_all _ _ _ _ _ _ Hc). lia.
Qed.

Lemma benchmark_pure_callable_witness :
  exists avg w',
    benchmark_function (pure_callable python_fibonacci 2) 35 1 "Python" fresh_world
      = (Ret (9227465, avg), w') /\
    state w' = O /\ calls w' = 1%nat.
Proof.
  destruct (benchmark_pure_callable python_fibonacci 2 35 9227465 1 "Python"
              fresh_world ltac:(lia) ltac:(discriminate)
              (fibonacci_linear_iteration_aux 35 ltac:(lia)))
    as (avg & w' & Hrun & _ & Hst & Hcalls).
  exists avg, w'. split; [exact Hrun |]. split; [exact Hst | exact Hcalls].
Defined.

(** ** The stack of the naive recursion *)

Lemma fib_depth_small (n : Z) :
  n <= 1 -> python_fibonacci_depth n = (Ret n, 1).
Proof.
  intros H. rewrite python_fibonacci_depth_equation_1.
  destruct (Z_le_gt_dec n 1); [reflexivity | lia].
Qed.

Lemma fib_depth_step (n : Z) (a b da db : Z) :
  1 < n ->
  python_fibonacci_depth (n - 1) = (Ret a, da) ->
  python_fibonacci_depth (n - 2) = (Ret b, db) ->
  python_fibonacci_depth n = (Ret (a + b), 1 + Z.max da db).
Proof.
  intros H Ha Hb. rewrite python_fibonacci_depth_equation_1.
  destruct (Z_le_gt_dec n 1); [lia |]. cbn. now rewrite Ha, Hb.
Qed.

Lemma fib_depth_nat_pair (k : nat) :
  python_fibonacci_depth (Z.of_nat k)
    = (Ret (fst (fib_pair k)), Z.max 1 (Z.of_nat k)) /\
  python_fibonacci_depth (Z.of_nat (S k))
    = (Ret (snd (fib_pair k)), Z.of_nat (S k)).
Proof.
  induction k as [| k [IHa IHb]].
  - split; cbn; apply fib_depth_small; lia.
  - split.
    + rewrite fib_pair_S. cbn [fst snd]. rewrite IHb. f_equal. lia.
    + rewrite fib_pair_S. cbn [fst snd].
      rewrite (fib_depth_step (Z.of_nat (S (S k)))
                 (snd (fib_pair k)) (fst (fib_pair k))
                 (Z.of_nat (S k)) (Z.max 1 (Z.of_nat k))).
      * f_equal; [f_equal; lia | lia].
      * lia.
      * replace (Z.of_nat (S (S k)) - 1) with (Z.of_nat (S k)) by lia. exact IHb.
      * replace (Z.of_nat (S (S k)) - 2) with (Z.of_nat k) by lia. exact IHa.
Qed.

(** X7. The recursion is [n] activations deep for [n >= 1] and one deep
    below, and the function with the ghost depth returns what
    [python_fibonacci] returns. *)
Theorem fibonacci_stack_depth (n : Z) :
  python_fibonacci_depth n = (python_fibonacci n, Z.max 1 n).
Proof.
  destruct (Z_le_gt_dec n 1) as [Hle | Hgt].
  - rewrite fib_depth_small, fib_small by exact Hle. f_equal. lia.
  - rewrite (fibonacci_linear_iteration_aux n) by lia.
    rewrite <- (Z2Nat.id n) at 1 by lia.
    rewrite (proj1 (fib_depth_nat_pair (Z.to_nat n))). f_equal. lia.
Qed.

(** ** What is counted *)

Lemma forallb_rev_true (P : Z -> bool) (l : str) :
  forallb P l = true -> forallb P (rev l) = true.
Proof.
  rewrite !forallb_forall. intros H x Hx. apply H. now apply in_rev.
Qed.

Lemma rev_cons_nonempty (c : Z) (l : str) : rev (c :: l) <> [].
Proof.
  cbn [rev]. intros H. apply app_eq_nil in H. destruct H as [_ H]. discriminate H.
Qed.

Lemma split_from_tokens (s cur : str) :
  forallb (fun c => negb (is_space c)) cur = true ->
  concat (split_from cur s)
    = rev cur ++ List.filter (fun c => negb (is_space c)) s /\
  Forall (fun tok => tok <> [] /\ forallb (fun c => negb (is_space c)) tok = true)
         (split_from cur s).
Proof.
  revert cur. induction s as [| c s IH]; intros cur Hcur.
  - destruct cur as [| x cur'].
    + split; [reflexivity | constructor].
    + cbn [split_from concat List.filter]. split; [reflexivity |].
      constructor; [| constructor].
      split; [apply rev_cons_nonempty | now apply forallb_rev_true].
  - cbn [split_from List.filter]. destruct (is_space c) eqn:Hc; cbn [negb].
    + destruct (IH [] eq_refl) as [Hcat Hall]. destruct cur as [| x cur'].
      * split; [exact Hcat | exact Hall].
      * cbn [concat]. rewrite Hcat. split; [reflexivity |].
        constructor; [| exact Hall].
        split; [apply rev_cons_nonempty | now apply forallb_rev_true].
    + destruct (IH (c :: cur)) as [Hcat Hall].
      { cbn [forallb]. now rewrite Hc, Hcur. }
      split; [| exact Hall].
      rewrite Hcat. cbn [rev]. now rewrite <- app_assoc.
Qed.

(** X15. The words counted are runs without whitespace: every token of
    [text.split()] is non-empty and free of whitespace, and the tokens
    put together are the text with its whitespace taken out. *)
Theorem split_tokens_whitespace_free (text : str) :
  concat (str_split text) = List.filter (fun c => negb (is_space c)) text /\
  Forall (fun tok => tok <> [] /\ forallb (fun c => negb (is_space c)) tok = true)
         (str_split text) /\
  snd (fst (python_analyze_text text)) = len (str_split text).
Proof.
  destruct (split_from_tokens text [] eq_refl) as [Hcat Hall].
  split; [exact Hcat |]. split; [exact Hall | reflexivity].
Qed.

Lemma splitlines_from_segments (s cur : str) :
  forallb (fun c => negb (is_linebreak c)) cur = true ->
  concat (splitlines_from cur s)
    = rev cur ++ List.filter (fun c => negb (is_linebreak c)) s /\
  Forall (fun seg => forallb (fun c => negb (is_linebreak c)) seg = true)
         (splitlines_from cur s).
Proof.
  remember (length s) as n eqn:Hn. revert s cur Hn.
  induction n as [n IH] using lt_wf_ind. intros s cur Hn Hcur.
  destruct s as [| c s'].
  - destruct cur as [| x cur'].
    + split; [reflexivity | constructor].
    + cbn [splitlines_from concat List.filter]. split; [reflexivity |].
      constructor; [now apply forallb_rev_true | constructor].
  - cbn [splitlines_from List.filter]. destruct (is_linebreak c) eqn:Hc; cbn [negb].
    + destruct s' as [| c' s''].
      * cbn [concat List.filter]. split; [reflexivity |].
        constructor; [now apply forallb_rev_true | constructor].
      * destruct ((c =? CR) && (c' =? LF)) eqn:Hpair.
        -- apply andb_true_iff in Hpair. destruct Hpair as [_ H2].
           apply Z.eqb_eq in H2. subst c'.
           destruct (IH (length s'') ltac:(cbn in Hn; lia) s'' [] eq_refl eq_refl)
             as [Hcat Hall].
           cbn [concat List.filter is_linebreak]. rewrite Hcat.
           split; [reflexivity |].
           constructor; [now apply forallb_rev_true | exact Hall].
        -- destruct (IH (length (c' :: s'')) ltac:(cbn in Hn |- *; lia)
                        (c' :: s'') [] eq_refl eq_refl) as [Hcat Hall].
           cbn [concat]. rewrite Hcat. split; [reflexivity |].
           constructor; [now apply forallb_rev_true | exact Hall].
    + destruct (IH (length s') ltac:(cbn in Hn; lia) s' (c :: cur) eq_refl)
        as [Hcat Hall].
      { cbn [forallb]. now rewrite Hc, Hcur. }
      split; [| exact Hall].
      rewrite Hcat. cbn [rev]. now rewrite <- app_assoc.
Qed.

(** X16. The lines counted hold no line boundary: no segment of
    [text.splitlines()] contains a line-break character, and the
    segments put together are the text with its line breaks taken out. *)
Theorem splitlines_segments_break_free (text : str) :
  concat (str_splitlines text)
    = List.filter (fun c => negb (is_linebreak c)) text /\
  Forall (fun seg => forallb (fun c => negb (is_linebreak c)) seg = true)
         (str_splitlines text) /\
  fst (fst (python_analyze_text text)) = len (str_splitlines text).
Proof.
  destruct (splitlines_from_segments text [] eq_refl) as [Hcat Hall].
  split; [exact Hcat |]. split; [exact Hall | reflexivity].
Qed.
